(** * pyhocon: the substitution resolver and the scalar grammar

    A shallow embedding of [pyhocon/__init__.py]: the parse actions
    ([create_substitution], the three [postParse] methods), the resolver
    ([ConfigParser._resolve_variable], [ConfigParser._resolve_substitutions])
    and the regular expressions of the scalar tokens.

    Python objects that are mutated through references (ConfigTree,
    ConfigValues, ConfigSubstitution) live in a store and are named by their
    index in it; a Python list is an immutable value here, because the parser
    and the resolver only rebind the slot that holds it. *)

From Stdlib Require Import ZArith String Ascii DecimalString.
From stdpp Require Import base list.
From Stdlib Require Import Lia.

Set Warnings "-register-all".

Local Open Scope string_scope.
Local Open Scope list_scope.

(** ** Values and objects *)

(** A value as the parser and the resolver see it.  [VTree], [VValues] and
    [VSubst] are references into the store.  A float is carried as the text
    of its literal: nothing here computes with it. *)
Inductive value : Type :=
| VNone
| VBool (b : bool)
| VInt (n : Z)
| VFloat (literal : string)
| VStr (s : string)
| VList (l : list value)
| VTree (t : nat)
| VValues (c : nat)
| VSubst (s : nat).

(** ConfigSubstitution(variable, ws, instring, loc); [index] and [parent] are
    assigned by the ConfigValues that receives the token. *)
Record ConfigSubstitution : Type := mkSubst {
  variable : string;
  ws : string;
  index : option nat;
  parent : option nat;
  instring : string;
  loc : nat
}.

(** ConfigValues: the token run of one key, with the container and key it is
    to overwrite (lines 323-324 assign both together). *)
Record ConfigValues : Type := mkValues {
  tokens : list value;
  owner : option (nat * string)
}.

(** ConfigTree: an ordered mapping from key to value. *)
Definition ConfigTree : Type := list (string * value).

Record store : Type := mkStore {
  trees : list ConfigTree;
  pendings : list ConfigValues;
  substs : list ConfigSubstitution
}.

Definition empty_store : store := mkStore [] [] [].

(** ** Exceptions and the state-and-exception monad *)

Inductive exn : Type :=
| ConfigSubstitutionException (msg : string)
| ValueShapeError
| PythonError (kind : string).

Inductive result (A : Type) : Type :=
| Ok (a : A)
| Raise (e : exn).
Arguments Ok {A} a.
Arguments Raise {A} e.

Definition M (A : Type) : Type := store -> result (A * store).

Definition ret {A} (a : A) : M A := fun st => Ok (a, st).
Definition raise {A} (e : exn) : M A := fun _ => Raise e.
Definition bind {A B} (m : M A) (k : A -> M B) : M B :=
  fun st => match m st with
            | Ok (a, st') => k a st'
            | Raise e => Raise e
            end.
Definition get_store : M store := fun st => Ok (st, st).

Notation "'do' x <- m ; k" := (bind m (fun x => k))
  (at level 10, x name, m at level 100, k at level 200).
Notation "m ;; k" := (bind m (fun _ => k))
  (at level 100, k at level 200, right associativity).

(** ** Strings *)

Definition string_of_nat (n : nat) : string := NilZero.string_of_uint (Nat.to_uint n).
Definition string_of_Z (z : Z) : string := NilZero.string_of_int (Z.to_int z).

Fixpoint join (sep : string) (l : list string) : string :=
  match l with
  | [] => ""
  | [s] => s
  | s :: rest => s ++ sep ++ join sep rest
  end.

Definition newline : ascii := ascii_of_nat 10.

(** Python's [\s] on ASCII text: space, tab, newline, vertical tab, form
    feed, carriage return. *)
Definition is_space (c : ascii) : bool :=
  let n := nat_of_ascii c in
  Nat.eqb n 32 || (Nat.leb 9 n && Nat.leb n 13).

Fixpoint lstrip (s : string) : string :=
  match s with
  | String c rest => if is_space c then lstrip rest else s
  | EmptyString => EmptyString
  end.

Fixpoint rev_string (s acc : string) : string :=
  match s with
  | String c rest => rev_string rest (String c acc)
  | EmptyString => acc
  end.

Definition rstrip (s : string) : string :=
  rev_string (lstrip (rev_string s "")) "".

(** [str.strip()] *)
Definition strip (s : string) : string := rstrip (lstrip s).

(** pyparsing's [lineno(loc, strg)]: one more than the number of newlines
    before [loc]. *)
Fixpoint count_newlines (n : nat) (s : string) : nat :=
  match n, s with
  | S n', String c rest =>
      (if Ascii.eqb c newline then 1 else 0) + count_newlines n' rest
  | _, _ => 0
  end.

Definition lineno (loc : nat) (strg : string) : nat := count_newlines loc strg + 1.

(** pyparsing's [col(loc, strg)]: [loc - strg.rfind(newline, 0, loc)], the
    1-based column of [loc] in its line. *)
Fixpoint col_from (n : nat) (s : string) (c : nat) : nat :=
  match n, s with
  | S n', String a rest =>
      col_from n' rest (if Ascii.eqb a newline then 1 else S c)
  | _, _ => c
  end.

Definition col (loc : nat) (strg : string) : nat := col_from loc strg 1.

(** ** ConfigTree

    [pyhocon/config_tree.py] is not among the sources; the operations below
    are what [__init__.py] calls on its classes.  A reference that names no
    object of the store cannot occur in Python; the readers below answer it
    with an error so that they are total. *)

Fixpoint assoc (k : string) (t : ConfigTree) : option value :=
  match t with
  | [] => None
  | (k', v) :: rest => if String.eqb k k' then Some v else assoc k rest
  end.

(** Assignment in an ordered mapping: an existing key keeps its place, a new
    key goes last. *)
Fixpoint assoc_set (k : string) (v : value) (t : ConfigTree) : ConfigTree :=
  match t with
  | [] => [(k, v)]
  | (k', v') :: rest =>
      if String.eqb k k' then (k, v) :: rest else (k', v') :: assoc_set k v rest
  end.

Definition dot : ascii := ascii_of_nat 46.
Definition dquote : ascii := ascii_of_nat 34.

(** Modelled from the spec: the key splitter of ConfigTree (config_tree.py is
    missing).  "A key containing [.] outside quotes denotes a path and must be
    split into nested ConfigTree levels; quoted keys containing literal dots
    are NOT split."  [seg] is the segment read so far, reversed. *)
Fixpoint split_path (s : string) (quoted : bool) (seg : string) : list string :=
  match s with
  | EmptyString => [rev_string seg ""]
  | String c rest =>
      if Ascii.eqb c dquote then split_path rest (negb quoted) (String c seg)
      else if Ascii.eqb c dot && negb quoted
           then rev_string seg "" :: split_path rest quoted ""
           else split_path rest quoted (String c seg)
  end.

Definition parse_key (key : string) : list string := split_path key false "".

Definition new_tree : M nat :=
  fun st => Ok (length (trees st),
                mkStore (trees st ++ [[]]) (pendings st) (substs st)).

Definition read_tree (t : nat) : M ConfigTree :=
  fun st => match trees st !! t with
            | Some entries => Ok (entries, st)
            | None => Raise (PythonError "dangling ConfigTree")
            end.

(** Modelled from the spec: [tree[key] = value], the item assignment of
    ConfigTree (config_tree.py is missing).  "ConfigTree: ordered mapping
    from string key to ConfigValue; insertion order preserved for iteration
    but lookup is by key": the key is taken as it is, an existing key keeps
    its place and a new key goes last. *)
Definition tree_setitem (t : nat) (key : string) (v : value) : M unit :=
  fun st => match trees st !! t with
            | Some entries =>
                Ok (tt, mkStore (<[t := assoc_set key v entries]> (trees st))
                                (pendings st) (substs st))
            | None => Raise (PythonError "dangling ConfigTree")
            end.

(** Modelled from the spec: ConfigTree.get (config_tree.py is missing).
    "[get(dottedPath) -> ConfigValue], failing with a not-found error if any
    path segment is absent."  [None] is the failure. *)
Fixpoint tree_get_path (st : store) (t : nat) (path : list string) : option value :=
  match path with
  | [] => None
  | [k] => match trees st !! t with
           | Some entries => assoc k entries
           | None => None
           end
  | k :: rest =>
      match trees st !! t with
      | Some entries =>
          match assoc k entries with
          | Some (VTree t') => tree_get_path st t' rest
          | _ => None
          end
      | None => None
      end
  end.

Definition tree_get (st : store) (t : nat) (key : string) : option value :=
  tree_get_path st t (parse_key key).

(** [config.get(variable)] on the parse result, which is a ConfigTree or (for
    a document that is a bare array) a list; a list has no [get], and the
    AttributeError is one more Exception for the caller's [except]. *)
Definition config_get (st : store) (config : value) (key : string) : option value :=
  match config with
  | VTree t => tree_get st t key
  | _ => None
  end.

(** Modelled from the spec: the Merge Engine, object into object
    (config_tree.py is missing).  "Deep merge: recursively apply this same
    rule key-by-key into the existing tree (new keys added, overlapping keys
    merged recursively, scalar/list keys overwritten)."  The recursion follows
    the nesting of the trees in the store; [fuel] bounds it by the number of
    trees, and running out is Python's RecursionError on a cyclic tree. *)
Fixpoint merge_config_tree (fuel : nat) (a b : nat) : M unit :=
  match fuel with
  | O => raise (PythonError "RecursionError")
  | S fuel' =>
      do entries <- read_tree b;
      (fix each (l : ConfigTree) : M unit :=
         match l with
         | [] => ret tt
         | (k, v) :: rest =>
             do existing <- read_tree a;
             (match assoc k existing, v with
              | Some (VTree a'), VTree b' => merge_config_tree fuel' a' b'
              | _, _ => tree_setitem a k v
              end) ;; each rest
         end) entries
  end.

(** Modelled from the spec: ConfigTree.put (config_tree.py is missing).
    "[put("a.b", v)] creates/reuses tree at [a] and sets [b] inside it"; at
    the last segment the Merge Engine applies: object on object merges deep,
    list on list written as a juxtaposed pair ([append]) concatenates, any
    other combination is last write wins. *)
Fixpoint tree_put_path (path : list string) (v : value) (append : bool) (t : nat) : M unit :=
  match path with
  | [] => ret tt
  | [k] =>
      do existing <- read_tree t;
      match assoc k existing, v with
      | Some (VTree a), VTree b =>
          do st <- get_store; merge_config_tree (S (length (trees st))) a b
      | Some (VList l), VList l' =>
          if append then tree_setitem t k (VList (l ++ l')) else tree_setitem t k v
      | _, _ => tree_setitem t k v
      end
  | k :: rest =>
      do existing <- read_tree t;
      match assoc k existing with
      | Some (VTree t') => tree_put_path rest v append t'
      | _ => do t' <- new_tree; tree_setitem t k (VTree t') ;; tree_put_path rest v append t'
      end
  end.

Definition tree_put (t : nat) (key : string) (v : value) (append : bool) : M unit :=
  tree_put_path (parse_key key) v append t.

(** ** ConfigSubstitution and ConfigValues *)

Definition read_subst (s : nat) : M ConfigSubstitution :=
  fun st => match substs st !! s with
            | Some sub => Ok (sub, st)
            | None => Raise (PythonError "dangling ConfigSubstitution")
            end.

Definition read_values (c : nat) : M ConfigValues :=
  fun st => match pendings st !! c with
            | Some cv => Ok (cv, st)
            | None => Raise (PythonError "dangling ConfigValues")
            end.

Definition write_values (c : nat) (cv : ConfigValues) : M unit :=
  fun st => Ok (tt, mkStore (trees st) (<[c := cv]> (pendings st)) (substs st)).

Definition is_subst (v : value) : bool :=
  match v with VSubst _ => true | _ => false end.

(** [token.parent = self; token.index = index] for a substitution token. *)
Definition adopt (c : nat) (i : nat) (tok : value) (subs : list ConfigSubstitution)
  : list ConfigSubstitution :=
  match tok with
  | VSubst s =>
      match subs !! s with
      | Some sub =>
          <[s := mkSubst (variable sub) (ws sub) (Some i) (Some c)
                         (instring sub) (loc sub)]> subs
      | None => subs
      end
  | _ => subs
  end.

Fixpoint adopt_all (c : nat) (i : nat) (toks : list value) (subs : list ConfigSubstitution)
  : list ConfigSubstitution :=
  match toks with
  | [] => subs
  | tok :: rest => adopt_all c (S i) rest (adopt c i tok subs)
  end.

(** Modelled from the spec: the constructor ConfigValues(tokens, instring,
    loc) (config_tree.py is missing).  "SubstitutionRef: ... the owning
    PendingConcatenation, the token index within it": each substitution token
    is told its owner and its position.  The owning container and key are
    unset until the tree parser assigns them. *)
Definition new_ConfigValues (toks : list value) : M nat :=
  fun st =>
    let c := length (pendings st) in
    Ok (c, mkStore (trees st)
                   (pendings st ++ [mkValues toks None])
                   (adopt_all c 0 toks (substs st))).

(** Modelled from the spec: ConfigValues.put(index, value), "write the
    resolved value into its token slot" (config_tree.py is missing); a Python
    list assignment, which raises out of range. *)
Definition values_put (c : nat) (i : nat) (v : value) : M unit :=
  do cv <- read_values c;
  if decide (i < length (tokens cv))
  then write_values c (mkValues (<[i := v]> (tokens cv)) (owner cv))
  else raise (PythonError "IndexError").

(** What [transform] hands back: one value, or a Python list of results (the
    form pyparsing expects from [postParse] and that line 234 unwraps). *)
Inductive transformation : Type :=
| TValue (v : value)
| TList (l : list value).

Inductive kind : Type := KScalar | KList | KTree | KOther.

Definition kind_of (v : value) : kind :=
  match v with
  | VNone | VBool _ | VInt _ | VFloat _ | VStr _ => KScalar
  | VList _ => KList
  | VTree _ => KTree
  | VValues _ | VSubst _ => KOther
  end.

Definition is_scalar (v : value) : bool :=
  match kind_of v with KScalar => true | _ => false end.
Definition is_list (v : value) : bool :=
  match kind_of v with KList => true | _ => false end.
Definition is_tree (v : value) : bool :=
  match kind_of v with KTree => true | _ => false end.

(** Python's [str] of a scalar (for a float, the literal stands for it). *)
Definition format_str (v : value) : string :=
  match v with
  | VStr s => s
  | VInt n => string_of_Z n
  | VFloat literal => literal
  | VBool true => "True"
  | VBool false => "False"
  | VNone => "None"
  | _ => ""
  end.

Definition list_items (v : value) : list value :=
  match v with VList l => l | _ => [] end.

Fixpoint concat_strings (l : list string) : string :=
  match l with
  | [] => ""
  | s :: rest => s ++ concat_strings rest
  end.

Fixpoint merge_all (into : nat) (toks : list value) : M unit :=
  match toks with
  | [] => ret tt
  | VTree b :: rest =>
      (do st <- get_store; merge_config_tree (S (length (trees st))) into b) ;;
      merge_all into rest
  | _ :: rest => merge_all into rest
  end.

(** Modelled from the spec: the Concatenation Transformer,
    ConfigValues.transform (config_tree.py is missing).  While a
    substitution token is unresolved the node stands for itself (line 278
    returns it from the parser and lines 321-324 find it again).  Otherwise:
    "exactly one token: its value is the result verbatim"; "every token a
    string (or coerced to string): concatenate their text"; "every token a
    ConfigList: concatenate the lists in order"; "every token a ConfigTree:
    deep-merge them in order"; "mixed incompatible kinds: a value-shape
    error".  The white space that followed a substitution is part of its
    token by then (lines 229-231), so the text is joined as it stands.  A
    list result is returned as a one-element Python list, the form
    that line 234 unwraps, and an empty token run gives no result at all, so
    that the tree parser stores the empty string (lines 308-309). *)
Definition transform (c : nat) : M transformation :=
  do cv <- read_values c;
  let toks := tokens cv in
  if existsb is_subst toks then ret (TValue (VValues c))
  else match toks with
       | [] => ret (TList [])
       | [v] => ret (if is_list v then TList [v] else TValue v)
       | _ =>
           if forallb is_scalar toks
           then ret (TValue (VStr (concat_strings (map format_str toks))))
           else if forallb is_list toks
           then ret (TList [VList (concat (map list_items toks))])
           else if forallb is_tree toks
           then do t <- new_tree; merge_all t toks ;; ret (TValue (VTree t))
           else raise ValueShapeError
       end.

(** ** The parse actions of [ConfigParser.parse] *)

(** The regular expression SUBSTITUTION (line 105) on a token that
    [substitution_expr] matched: dollar, brace, the variable up to the first
    closing brace, the brace, and the white space that follows. *)
Fixpoint until_brace (s : string) (acc : string) : option (string * string) :=
  match s with
  | EmptyString => None
  | String c rest =>
      if Ascii.eqb c "}"%char then Some (rev_string acc "", rest)
      else until_brace rest (String c acc)
  end.

Fixpoint all_space (s : string) : bool :=
  match s with
  | EmptyString => true
  | String c rest => is_space c && all_space rest
  end.

(** The longest prefix of white space, what a greedy [\s*] takes. *)
Fixpoint take_space (s : string) : string :=
  match s with
  | EmptyString => EmptyString
  | String c rest => if is_space c then String c (take_space rest) else EmptyString
  end.

Definition match_SUBSTITUTION (token : string) : option (string * string) :=
  match token with
  | String "$" (String "{" rest) =>
      match until_brace rest "" with
      | Some (EmptyString, _) => None
      | Some (var, tail) => Some (var, take_space tail)
      | None => None
      end
  | _ => None
  end.

(** [create_substitution(instring, loc, token)], lines 107-114: the new
    object is appended to the list [substitutions], which is threaded here
    next to the store. *)
Definition create_substitution (strg : string) (l : nat) (token : string)
  (substitutions : list nat) : M (value * list nat) :=
  match match_SUBSTITUTION token with
  | Some (var, w) =>
      fun st =>
        let s := length (substs st) in
        Ok ((VSubst s, substitutions ++ [s]),
            mkStore (trees st) (pendings st)
                    (substs st ++ [mkSubst var w None None strg l]))
  | None => raise (PythonError "AttributeError")
  end.

(** [ConcatenatedValueParser.postParse], lines 276-278. *)
Definition ConcatenatedValueParser_postParse (token_list : list value) : M transformation :=
  do config_values <- new_ConfigValues token_list;
  transform config_values.

(** What pyparsing makes of the value a [postParse] returns: a list is the
    list of result tokens, anything else is one token. *)
Definition as_tokens (tr : transformation) : list value :=
  match tr with
  | TValue v => [v]
  | TList l => l
  end.

(** One element of the token list that reaches [ConfigTreeParser.postParse]:
    the ConfigTree an [include] produced, or the group of one assignment,
    key first. *)
Inductive element : Type :=
| Included (t : nat)
| Assigned (key : string) (values : list value).

Definition set_owner (c : nat) (t : nat) (key : string) : M unit :=
  do cv <- read_values c;
  write_values c (mkValues (tokens cv) (Some (t, key))).

Fixpoint put_each (config_tree : nat) (key : string) (values : list value) (append : bool)
  : M unit :=
  match values with
  | [] => ret tt
  | value :: rest =>
      tree_put config_tree key value append ;; put_each config_tree key rest append
  end.

(** Lines 318-327: the "merge dict" branch. *)
Fixpoint put_values (config_tree : nat) (key : string) (values : list value) : M unit :=
  match values with
  | [] => ret tt
  | value :: rest =>
      (match value with
       | VValues c => set_owner c config_tree key
       | _ => ret tt
       end) ;;
      tree_put config_tree key value false ;;
      put_values config_tree key rest
  end.

(** Lines 303-327, for one [tokens] group. *)
Definition put_tokens (config_tree : nat) (key0 : string) (values : list value) : M unit :=
  let key := strip key0 in
  match values with
  | [] => tree_put config_tree key (VStr "") false
  | VList _ as first :: rest =>
      tree_put config_tree key first false ;; put_each config_tree key rest true
  | _ => put_values config_tree key values
  end.

Fixpoint put_items (config_tree : nat) (items : ConfigTree) : M unit :=
  match items with
  | [] => ret tt
  | (k, v) :: rest => put_tokens config_tree k [v] ;; put_items config_tree rest
  end.

Fixpoint put_elements (config_tree : nat) (token_list : list element) : M unit :=
  match token_list with
  | [] => ret tt
  | Included t :: rest =>
      (do items <- read_tree t; put_items config_tree items) ;;
      put_elements config_tree rest
  | Assigned key values :: rest =>
      put_tokens config_tree key values ;; put_elements config_tree rest
  end.

(** [ConfigTreeParser.postParse], lines 289-329. *)
Definition ConfigTreeParser_postParse (token_list : list element) : M value :=
  do config_tree <- new_tree;
  put_elements config_tree token_list ;;
  ret (VTree config_tree).

(** [ListParser.postParse], lines 257-266. *)
Definition ListParser_postParse (token_list : list value) : M value :=
  ret (VList token_list).

(** ** The resolver *)

Definition position (sub : ConfigSubstitution) : string * string :=
  (string_of_nat (lineno (loc sub) (instring sub)),
   string_of_nat (col (loc sub) (instring sub))).

(** Line 201. *)
Definition cannot_resolve_variable (sub : ConfigSubstitution) : string :=
  "Cannot resolve variable ${" ++ variable sub ++ "} (line: "
    ++ fst (position sub) ++ ", col: " ++ snd (position sub) ++ ")".

(** Lines 207-208. *)
Definition cannot_substitute_variable (sub : ConfigSubstitution) (type : string) : string :=
  "Cannot substitute variable ${" ++ variable sub
    ++ "} because it does not point to a string, int, float, boolean or null "
    ++ type ++ " (line:" ++ fst (position sub) ++ ", col: " ++ snd (position sub) ++ ")".

(** One entry of the message of line 241. *)
Definition unresolved_entry (sub : ConfigSubstitution) : string :=
  "${" ++ variable sub ++ "}: (line: " ++ fst (position sub)
    ++ ", col: " ++ snd (position sub) ++ ")".

(** Line 240. *)
Definition check_for_cycles (subs : list ConfigSubstitution) : string :=
  "Cannot resolve " ++ join ", " (map unresolved_entry subs) ++ ". Check for cycles.".

Definition class_name (v : value) : string :=
  match v with
  | VList _ => "ConfigList"
  | VTree _ => "ConfigTree"
  | VValues _ => "ConfigValues"
  | VSubst _ => "ConfigSubstitution"
  | VStr _ => "str"
  | VInt _ => "int"
  | VFloat _ => "float"
  | VBool _ => "bool"
  | VNone => "NoneType"
  end.

(** [isinstance(value, ConfigList) or isinstance(value, ConfigTree)] *)
Definition is_composite (v : value) : bool := is_list v || is_tree v.

(** How the loop of [_resolve_substitutions] ends. *)
Inductive loop_end : Type :=
| Broke (i : nat) (working : list nat) (st : store)
| Exhausted (working : list nat) (st : store)
| RaisedInPass (i : nat) (e : exn).

Section Resolver.

(** [os.environ.get]. *)
Variable environ : string -> option string.

(** The order in which pass [i] meets the members of the working set: a
    Python set of objects has no order of its own. *)
Variable order : nat -> list nat -> list nat.

(** [ConfigParser._resolve_variable], lines 192-213. *)
Definition _resolve_variable (st : store) (config : value) (substitution : ConfigSubstitution)
  : result value :=
  match config_get st config (variable substitution) with
  | Some v => Ok v
  | None =>
      match environ (variable substitution) with
      | None =>
          Raise (ConfigSubstitutionException (cannot_resolve_variable substitution))
      | Some text =>
          let value := VStr text in
          if is_composite value
          then Raise (ConfigSubstitutionException
                        (cannot_substitute_variable substitution (class_name value)))
          else Ok value
      end
  end.

(** Lines 229-231: the white space that followed the substitution goes after
    a string that is not the last token. *)
Definition formatted_resolved_value (resolved_value : value) (w : string)
  (i : nat) (ntokens : nat) : value :=
  match resolved_value with
  | VStr text =>
      if (Z.of_nat i <? Z.of_nat ntokens - 1)%Z then VStr (text ++ w) else resolved_value
  | _ => resolved_value
  end.

(** Line 234. *)
Definition first_or_self (tr : transformation) : M value :=
  match tr with
  | TList (v :: _) => ret v
  | TList [] => raise (PythonError "IndexError")
  | TValue v => ret v
  end.

(** Lines 226-236: the value is written into the token slot, the owner is
    transformed and the outcome stored under the owner's key. *)
Definition replace_token (substitution : ConfigSubstitution) (resolved_value : value)
  : M unit :=
  match parent substitution, index substitution with
  | Some config_values, Some i =>
      do cv <- read_values config_values;
      values_put config_values i
        (formatted_resolved_value resolved_value (ws substitution) i (length (tokens cv))) ;;
      do transformation <- transform config_values;
      do result <- first_or_self transformation;
      do cv' <- read_values config_values;
      match owner cv' with
      | Some (t, key) => tree_setitem t key result
      | None => raise (PythonError "TypeError")
      end
  | None, _ => raise (PythonError "AttributeError")
  | Some _, None => raise (PythonError "TypeError")
  end.

(** Lines 222-236, the body of the inner loop; [true] when the substitution
    was resolved and leaves the working set. *)
Definition resolve_one (config : value) (s : nat) : M bool :=
  do substitution <- read_subst s;
  do st <- get_store;
  match _resolve_variable st config substitution with
  | Raise e => raise e
  | Ok (VValues _) => ret false
  | Ok resolved_value => replace_token substitution resolved_value ;; ret true
  end.

(** Lines 221-236: one pass over a snapshot of the working set. *)
Fixpoint visit_all (config : value) (todo : list nat) (working : list nat) (unresolved : bool)
  : M (list nat * bool) :=
  match todo with
  | [] => ret (working, unresolved)
  | s :: rest =>
      do resolved <- resolve_one config s;
      if resolved
      then visit_all config rest (filter (fun x => x <> s) working) unresolved
      else visit_all config rest working true
  end.

(** Lines 219-244: pass [i], with [n] passes left. *)
Fixpoint passes (config : value) (n i : nat) (working : list nat) (st : store) : loop_end :=
  match n with
  | O => Exhausted working st
  | S n' =>
      match visit_all config (order i working) working false st with
      | Raise e => RaisedInPass i e
      | Ok ((working', unresolved), st') =>
          if unresolved then passes config n' (S i) working' st'
          else Broke i working' st'
      end
  end.

Definition subst_records (st : store) (l : list nat) : list ConfigSubstitution :=
  omap (fun s => substs st !! s) l.

(** [ConfigParser._resolve_substitutions], lines 215-246.  The working set is
    [set(substitutions)]. *)
Definition resolve_loop (config : value) (substitutions : list nat) (st : store) : loop_end :=
  passes config (length substitutions) 0 (remove_dups substitutions) st.

Definition _resolve_substitutions (config : value) (substitutions : list nat) : M value :=
  fun st =>
    if decide (0 < length substitutions)
    then match resolve_loop config substitutions st with
         | Broke _ _ st' => Ok (config, st')
         | Exhausted working st' =>
             Raise (ConfigSubstitutionException
                      (check_for_cycles
                         (subst_records st' (order (length substitutions) working))))
         | RaisedInPass _ e => Raise e
         end
    else Ok (config, st).

End Resolver.

(** ** Regular expressions

    The scalar tokens are pyparsing [Regex] elements.  The matcher below is
    a backtracking matcher with Python's priorities: the left alternative
    first, a greedy repetition as long as it can and a lazy one as short as
    it can, and a lookahead that consumes nothing.  [bt r s k] matches [r]
    at the head of [s] and hands the rest to the continuation [k]; the first
    success in priority order is the answer. *)

Inductive regex : Type :=
| Eps
| Chars (p : ascii -> bool)
| Seq (r1 r2 : regex)
| Alt (r1 r2 : regex)
| Star (greedy : bool) (r : regex)
| Ahead (r : regex).

Definition Opt (r : regex) : regex := Alt r Eps.
Definition Plus (greedy : bool) (r : regex) : regex := Seq r (Star greedy r).

Definition or_else {A} (x : option A) (y : option A) : option A :=
  match x with
  | Some a => Some a
  | None => y
  end.

(** The turns of a repetition whose body is matched by [body]: a greedy one
    tries one more turn before it tries to go on, a lazy one goes on first.
    The repetitions of this file's expressions consume a character at every
    turn, so [String.length s] turns are enough at [s]. *)
Fixpoint turns (body : string -> (string -> option string) -> option string)
  (greedy : bool) (k : string -> option string) (n : nat) (s : string) : option string :=
  match n with
  | O => k s
  | S n' =>
      if greedy
      then or_else (body s (turns body greedy k n')) (k s)
      else or_else (k s) (body s (turns body greedy k n'))
  end.

Fixpoint bt (r : regex) (s : string) (k : string -> option string) : option string :=
  match r with
  | Eps => k s
  | Chars p =>
      match s with
      | String c rest => if p c then k rest else None
      | EmptyString => None
      end
  | Seq r1 r2 => bt r1 s (fun s' => bt r2 s' k)
  | Alt r1 r2 => or_else (bt r1 s k) (bt r2 s k)
  | Star greedy r' => turns (bt r') greedy k (String.length s) s
  | Ahead r' =>
      match bt r' s Some with
      | Some _ => k s
      | None => None
      end
  end.

(** [re.match]: the text left after the match, if there is one. *)
Definition re_match (r : regex) (s : string) : option string := bt r s Some.

(** What a match consumed, given what it left. *)
Fixpoint take_prefix (n : nat) (s : string) : string :=
  match n, s with
  | S n', String c rest => String c (take_prefix n' rest)
  | _, _ => EmptyString
  end.

Definition matched_text (s rest : string) : string :=
  take_prefix (String.length s - String.length rest) s.

Definition char_in (set : string) (c : ascii) : bool :=
  existsb (Ascii.eqb c) (list_ascii_of_string set).

Definition tab : ascii := ascii_of_nat 9.
Definition cr : ascii := ascii_of_nat 13.
Definition backslash : ascii := ascii_of_nat 92.

Definition is_digit (c : ascii) : bool :=
  let n := nat_of_ascii c in Nat.leb 48 n && Nat.leb n 57.

(** [[ \t]] *)
Definition is_blank (c : ascii) : bool := Ascii.eqb c " " || Ascii.eqb c tab.

(** [[\$\}\],#\n\r]] *)
Definition is_number_delimiter (c : ascii) : bool :=
  char_in "$}],#" c || Ascii.eqb c newline || Ascii.eqb c cr.

Definition is_slash (c : ascii) : bool := Ascii.eqb c "/".

(** [(?=[ \t]*([\$\}\],#\n\r]|//))] *)
Definition number_lookahead : regex :=
  Ahead (Seq (Star true (Chars is_blank))
             (Alt (Chars is_number_delimiter) (Seq (Chars is_slash) (Chars is_slash)))).

(** [[+-]?(\d*\.\d+|\d+(\.\d+)?)([eE]\d+)?], the text of a number. *)
Definition number_text : regex :=
  Seq (Opt (Chars (char_in "+-")))
      (Seq (Alt (Seq (Star true (Chars is_digit))
                     (Seq (Chars (char_in ".")) (Plus true (Chars is_digit))))
                (Seq (Plus true (Chars is_digit))
                     (Opt (Seq (Chars (char_in ".")) (Plus true (Chars is_digit))))))
           (Opt (Seq (Chars (char_in "eE")) (Plus true (Chars is_digit))))).

(** [number_expr], line 150. *)
Definition number_expr : regex := Seq number_text number_lookahead.

(** [[^\[\{\n\]\}#,=\$]] *)
Definition is_unquoted_char (c : ascii) : bool :=
  negb (char_in "[{]}#,=$" c || Ascii.eqb c newline).

(** [[\}\],#\n\r]] *)
Definition is_string_delimiter (c : ascii) : bool :=
  char_in "}],#" c || Ascii.eqb c newline || Ascii.eqb c cr.

(** [unquoted_string], line 162:
    [(\\[ \t]*[\r\n]|[^\[\{\n\]\}#,=\$])+?(?=(\$|[ \t]*(//|[\}\],#\n\r])))] *)
Definition unquoted_string : regex :=
  Seq (Plus false
         (Alt (Seq (Chars (Ascii.eqb backslash))
                   (Seq (Star true (Chars is_blank))
                        (Chars (fun c => Ascii.eqb c cr || Ascii.eqb c newline))))
              (Chars is_unquoted_char)))
      (Ahead (Alt (Chars (char_in "$"))
                  (Seq (Star true (Chars is_blank))
                       (Alt (Seq (Chars is_slash) (Chars is_slash))
                            (Chars is_string_delimiter))))).

Definition is_dquote (c : ascii) : bool := Ascii.eqb c dquote.

(** [multiline_string], line 154: three quotes, anything (lazily), three
    quotes. *)
Definition multiline_string : regex :=
  Seq (Chars is_dquote) (Seq (Chars is_dquote) (Seq (Chars is_dquote)
    (Seq (Star false (Chars (fun _ => true)))
         (Seq (Chars is_dquote) (Seq (Chars is_dquote) (Chars is_dquote)))))).

(** [quoted_string], line 156: the expression pyparsing builds for
    [QuotedString(quoteChar, escChar, multiline=True)]: a quote, characters
    other than quote and backslash or escaped characters, a quote. *)
Definition quoted_string : regex :=
  Seq (Chars is_dquote)
      (Seq (Star true
              (Alt (Chars (fun c => negb (is_dquote c || Ascii.eqb c backslash)))
                   (Seq (Chars (Ascii.eqb backslash)) (Chars (fun _ => true)))))
           (Chars is_dquote)).

Definition upper (c : ascii) : ascii :=
  let n := nat_of_ascii c in
  if Nat.leb 97 n && Nat.leb n 122 then ascii_of_nat (n - 32) else c.

(** pyparsing's identifier characters for keywords: letters, digits,
    underscore and dollar. *)
Definition is_ident_char (c : ascii) : bool :=
  let n := nat_of_ascii (upper c) in
  (Nat.leb 65 n && Nat.leb n 90) || is_digit c || char_in "_$" c.

(** [Keyword(word, caseless=True)] at the head of [s]: the word in any case,
    not followed by an identifier character.  [word] is given in upper
    case. *)
Fixpoint keyword (word : string) (s : string) : option string :=
  match word, s with
  | EmptyString, EmptyString => Some s
  | EmptyString, String c _ => if is_ident_char c then None else Some s
  | String w word', String c rest =>
      if Ascii.eqb (upper c) w then keyword word' rest else None
  | String _ _, EmptyString => None
  end.

(** pyparsing skips the white space characters (here space and tab, line
    139) before a token. *)
Fixpoint skip_white (s : string) : string :=
  match s with
  | String c rest => if is_blank c then skip_white rest else s
  | EmptyString => EmptyString
  end.

(** [int(n)] on the text of a number: a sign and digits, or a ValueError. *)
Fixpoint digits_value (s : string) (acc : Z) : option Z :=
  match s with
  | EmptyString => Some acc
  | String c rest =>
      if is_digit c
      then digits_value rest (10 * acc + (Z.of_nat (nat_of_ascii c) - 48))%Z
      else None
  end.

Definition int_of_text (n : string) : option Z :=
  match n with
  | EmptyString => None
  | String "+" EmptyString | String "-" EmptyString => None
  | String "+" rest => digits_value rest 0
  | String "-" rest => option_map Z.opp (digits_value rest 0)
  | _ => digits_value n 0
  end.

(** [convert_number], lines 97-102: an int when [int(n)] accepts the text,
    a float otherwise. *)
Definition convert_number (n : string) : value :=
  match int_of_text n with
  | Some z => VInt z
  | None => VFloat n
  end.

(** The token [value_expr] (line 166) produces. *)
Inductive scalar : Type :=
| Number (v : value)
| TrueLiteral
| FalseLiteral
| NullLiteral
| MultilineString (text : string)
| QuotedString (text : string)
| UnquotedString (text : string).

Definition regex_token (r : regex) (make : string -> scalar) (s : string)
  : option (scalar * string) :=
  match re_match r s with
  | Some rest => Some (make (matched_text s rest), rest)
  | None => None
  end.

Definition keyword_token (word : string) (tok : scalar) (s : string)
  : option (scalar * string) :=
  match keyword word s with
  | Some rest => Some (tok, rest)
  | None => None
  end.

(** [string_expr = multiline_string | quoted_string | unquoted_string],
    line 164. *)
Definition string_expr (s : string) : option (scalar * string) :=
  or_else (regex_token multiline_string MultilineString s)
    (or_else (regex_token quoted_string QuotedString s)
       (regex_token unquoted_string UnquotedString s)).

(** [value_expr = number_expr | true_expr | false_expr | null_expr |
    string_expr], line 166: the first alternative that matches. *)
Definition value_expr (input : string) : option (scalar * string) :=
  let s := skip_white input in
  or_else (regex_token number_expr (fun text => Number (convert_number text)) s)
    (or_else (keyword_token "TRUE" TrueLiteral s)
       (or_else (keyword_token "FALSE" FalseLiteral s)
          (or_else (keyword_token "NULL" NullLiteral s)
             (string_expr s)))).

(** ** Parsing a document

    [ConfigParser.parse], lines 188-190: [grammar] stands for
    [config_expr.parseString(content)], that is the parse actions in the
    order pyparsing runs them, giving the root value and the list
    [substitutions]; the resolver then runs on both. *)
Definition parse (environ : string -> option string) (order : nat -> list nat -> list nat)
  (grammar : M (value * list nat)) : M value :=
  do parsed <- grammar;
  _resolve_substitutions environ order (fst parsed) (snd parsed).

(** [config.get(key)] on what [parse] returned. *)
Definition lookup (r : result (value * store)) (key : string) : option value :=
  match r with
  | Ok (config, st) => config_get st config key
  | Raise _ => None
  end.

Definition no_environ : string -> option string := fun _ => None.
Definition in_order : nat -> list nat -> list nat := fun _ l => l.
Definition reversed : nat -> list nat -> list nat := fun _ l => rev l.

(** An assignment [key: tokens] inside an object body: the value parser runs
    on the tokens, and the group holds the key and what it returned. *)
Definition assign (key : string) (toks : list value) : M element :=
  do tr <- ConcatenatedValueParser_postParse toks;
  ret (Assigned key (as_tokens tr)).



(** [{a: ${b}, b: ${c}, c: 5}] *)
Definition chain_text : string := "{a: ${b}, b: ${c}, c: 5}".
Definition chain_doc : M (value * list nat) :=
  do s1 <- create_substitution chain_text 4 "${b}" [];
  do a <- assign "a" [fst s1];
  do s2 <- create_substitution chain_text 13 "${c}" (snd s1);
  do b <- assign "b" [fst s2];
  do c <- assign "c" [VInt 5];
  do config <- ConfigTreeParser_postParse [a; b; c];
  ret (config, snd s2).

(** [{a: ${b}, b: ${a}}] *)
Definition cycle_text : string := "{a: ${b}, b: ${a}}".
Definition cycle_doc : M (value * list nat) :=
  do s1 <- create_substitution cycle_text 4 "${b}" [];
  do a <- assign "a" [fst s1];
  do s2 <- create_substitution cycle_text 13 "${a}" (snd s1);
  do b <- assign "b" [fst s2];
  do config <- ConfigTreeParser_postParse [a; b];
  ret (config, snd s2).

(** [{c: ${d}, a: ${b}, b: ${a}, d: 1}] *)
Definition mixed_text : string := "{c: ${d}, a: ${b}, b: ${a}, d: 1}".
Definition mixed_doc : M (value * list nat) :=
  do s1 <- create_substitution mixed_text 4 "${d}" [];
  do c <- assign "c" [fst s1];
  do s2 <- create_substitution mixed_text 13 "${b}" (snd s1);
  do a <- assign "a" [fst s2];
  do s3 <- create_substitution mixed_text 22 "${a}" (snd s2);
  do b <- assign "b" [fst s3];
  do d <- assign "d" [VInt 1];
  do config <- ConfigTreeParser_postParse [c; a; b; d];
  ret (config, snd s3).

(** [{a: ${b}, b: ${a}, c: ${a}}]: [c] is on no cycle but asks for one. *)
Definition dependent_text : string := "{a: ${b}, b: ${a}, c: ${a}}".
Definition dependent_doc : M (value * list nat) :=
  do s1 <- create_substitution dependent_text 4 "${b}" [];
  do a <- assign "a" [fst s1];
  do s2 <- create_substitution dependent_text 13 "${a}" (snd s1);
  do b <- assign "b" [fst s2];
  do s3 <- create_substitution dependent_text 22 "${a}" (snd s2);
  do c <- assign "c" [fst s3];
  do config <- ConfigTreeParser_postParse [a; b; c];
  ret (config, snd s3).

(** [{a {x: ${b}}, b {y: ${a}}}]: each object is reached through the other. *)
Definition nested_cycle_text : string := "{a {x: ${b}}, b {y: ${a}}}".
Definition nested_cycle_doc : M (value * list nat) :=
  do s1 <- create_substitution nested_cycle_text 7 "${b}" [];
  do x <- assign "x" [fst s1];
  do ta <- ConfigTreeParser_postParse [x];
  do s2 <- create_substitution nested_cycle_text 20 "${a}" (snd s1);
  do y <- assign "y" [fst s2];
  do tb <- ConfigTreeParser_postParse [y];
  do config <- ConfigTreeParser_postParse [Assigned "a " [ta]; Assigned "b " [tb]];
  ret (config, snd s2).

(** [{name: "x", full: ${name}<w>" suffix"}], with the white space [w]
    between the substitution and the quoted string. *)
Definition quote : string := String dquote "".
Definition concat_text (w : string) : string :=
  "{name: " ++ quote ++ "x" ++ quote ++ ", full: ${name}" ++ w
    ++ quote ++ " suffix" ++ quote ++ "}".
Definition concat_doc (w : string) : M (value * list nat) :=
  do name <- assign "name" [VStr "x"];
  do s <- create_substitution (concat_text w) 19 ("${name}" ++ w) [];
  do full <- assign "full" [fst s; VStr " suffix"];
  do config <- ConfigTreeParser_postParse [name; full];
  ret (config, snd s).

(** [{name: "x", full: "prefix "${name} }]: the substitution is the last
    token. *)
Definition last_text : string :=
  "{name: " ++ quote ++ "x" ++ quote ++ ", full: " ++ quote ++ "prefix " ++ quote
    ++ "${name} }".
Definition last_doc : M (value * list nat) :=
  do name <- assign "name" [VStr "x"];
  do s <- create_substitution last_text 28 "${name} " [];
  do full <- assign "full" [VStr "prefix "; fst s];
  do config <- ConfigTreeParser_postParse [name; full];
  ret (config, snd s).

(** [{a {x: 1}, b: ${a} {y: 2}}]: a substitution that resolves to an object,
    next to an object literal. *)
Definition composite_text : string := "{a {x: 1}, b: ${a} {y: 2}}".
Definition composite_doc : M (value * list nat) :=
  do x <- assign "x" [VInt 1];
  do ta <- ConfigTreeParser_postParse [x];
  do s <- create_substitution composite_text 14 "${a} " [];
  do y <- assign "y" [VInt 2];
  do ty <- ConfigTreeParser_postParse [y];
  do b <- assign "b" [fst s; ty];
  do config <- ConfigTreeParser_postParse [Assigned "a " [ta]; b];
  ret (config, snd s).

(** [{a: ${b}, a: ${c}, b: 1, c: 2}]: the key [a] is assigned twice. *)
Definition twice_text : string := "{a: ${b}, a: ${c}, b: 1, c: 2}".
Definition twice_doc : M (value * list nat) :=
  do s1 <- create_substitution twice_text 4 "${b}" [];
  do a1 <- assign "a" [fst s1];
  do s2 <- create_substitution twice_text 13 "${c}" (snd s1);
  do a2 <- assign "a" [fst s2];
  do b <- assign "b" [VInt 1];
  do c <- assign "c" [VInt 2];
  do config <- ConfigTreeParser_postParse [a1; a2; b; c];
  ret (config, snd s2).

(** [{x: ${a.b}, a: ${c}, c {b: 1}}]: the path [a.b] exists once [a] is
    resolved. *)
Definition through_text : string := "{x: ${a.b}, a: ${c}, c {b: 1}}".
Definition through_doc : M (value * list nat) :=
  do s1 <- create_substitution through_text 4 "${a.b}" [];
  do x <- assign "x" [fst s1];
  do s2 <- create_substitution through_text 15 "${c}" (snd s1);
  do a <- assign "a" [fst s2];
  do b <- assign "b" [VInt 1];
  do tc <- ConfigTreeParser_postParse [b];
  do config <- ConfigTreeParser_postParse [x; a; Assigned "c " [tc]];
  ret (config, snd s2).

Definition through_environ : string -> option string :=
  fun name => if String.eqb name "a.b" then Some "E" else None.

(** [{a {y: 1}, a {x: ${b}}, b: 2}]: the second object is merged into the
    first. *)
Definition merged_text : string := "{a {y: 1}, a {x: ${b}}, b: 2}".
Definition merged_doc : M (value * list nat) :=
  do y <- assign "y" [VInt 1];
  do t1 <- ConfigTreeParser_postParse [y];
  do s <- create_substitution merged_text 17 "${b}" [];
  do x <- assign "x" [fst s];
  do t2 <- ConfigTreeParser_postParse [x];
  do b <- assign "b" [VInt 2];
  do config <- ConfigTreeParser_postParse [Assigned "a " [t1]; Assigned "a " [t2]; b];
  ret (config, snd s).

(** [{a: ${zz}, b: ${c}, c: ${b}}]: one path that is nowhere, next to a
    cycle. *)
Definition missing_text : string := "{a: ${zz}, b: ${c}, c: ${b}}".
Definition missing_doc : M (value * list nat) :=
  do s1 <- create_substitution missing_text 4 "${zz}" [];
  do a <- assign "a" [fst s1];
  do s2 <- create_substitution missing_text 14 "${c}" (snd s1);
  do b <- assign "b" [fst s2];
  do s3 <- create_substitution missing_text 23 "${b}" (snd s2);
  do c <- assign "c" [fst s3];
  do config <- ConfigTreeParser_postParse [a; b; c];
  ret (config, snd s3).

(** [{a: ${HOME}}] *)
Definition home_text : string := "{a: ${HOME}}".
Definition home_doc : M (value * list nat) :=
  do s <- create_substitution home_text 4 "${HOME}" [];
  do a <- assign "a" [fst s];
  do config <- ConfigTreeParser_postParse [a];
  ret (config, snd s).

Definition home_environ : string -> option string :=
  fun name => if String.eqb name "HOME" then Some "/root" else None.

(** What the grammar hands to the resolver for a document. *)
Definition parsed_config (grammar : M (value * list nat)) : value :=
  match grammar empty_store with
  | Ok ((config, _), _) => config
  | Raise _ => VNone
  end.

Definition parsed_substitutions (grammar : M (value * list nat)) : list nat :=
  match grammar empty_store with
  | Ok ((_, substitutions), _) => substitutions
  | Raise _ => []
  end.

Definition parsed_store (grammar : M (value * list nat)) : store :=
  match grammar empty_store with
  | Ok (_, st) => st
  | Raise _ => empty_store
  end.

(** The record of substitution [s] after parsing. *)
Definition parsed_subst (grammar : M (value * list nat)) (s : nat) : ConfigSubstitution :=
  match substs (parsed_store grammar) !! s with
  | Some sub => sub
  | None => mkSubst "" "" None None "" 0
  end.

(** ** Predicates of the statements *)

(** The iteration order of a set is some arrangement of its members. *)
Definition arranges (order : nat -> list nat -> list nat) : Prop :=
  forall i l, Permutation (order i l) l.

(** Every member of the working set looks up to a pending concatenation:
    no visit can resolve anything. *)
Definition stalled (config : value) (st : store) (working : list nat) : Prop :=
  forall s, s ∈ working ->
    exists sub c, substs st !! s = Some sub
                  /\ config_get st config (variable sub) = Some (VValues c).


(** What [_resolve_substitutions] does at the end of the loop. *)
Definition outcome (order : nat -> list nat -> list nat) (config : value) (n : nat)
  (e : loop_end) : result (value * store) :=
  match e with
  | Broke _ _ st => Ok (config, st)
  | Exhausted working st =>
      Raise (ConfigSubstitutionException
               (check_for_cycles (subst_records st (order n working))))
  | RaisedInPass _ e => Raise e
  end.

(** The characters a number's text is made of. *)
Definition is_number_char (c : ascii) : bool := is_digit c || char_in "+-.eE" c.

(** The characters that may follow a number: a blank, a delimiter, or the
    slash that opens a comment. *)
Definition may_follow_number (c : ascii) : bool :=
  is_blank c || is_number_delimiter c || is_slash c.

(** [s] is blanks and then a delimiter or two slashes. *)
Fixpoint at_number_delimiter (s : string) : bool :=
  match s with
  | String c rest =>
      if is_blank c then at_number_delimiter rest
      else is_number_delimiter c
           || (is_slash c && match rest with
                             | String c' _ => is_slash c'
                             | EmptyString => false
                             end)
  | EmptyString => false
  end.

Fixpoint all_chars (p : ascii -> bool) (s : string) : bool :=
  match s with
  | String c rest => p c && all_chars p rest
  | EmptyString => true
  end.

(** [r] matches at the head of [s] and leaves [s']: the relation the
    backtracking matcher searches. *)
Inductive matches : regex -> string -> string -> Prop :=
| matches_eps s : matches Eps s s
| matches_chars p c s : p c = true -> matches (Chars p) (String c s) s
| matches_seq r1 r2 s s1 s2 :
    matches r1 s s1 -> matches r2 s1 s2 -> matches (Seq r1 r2) s s2
| matches_alt_l r1 r2 s s' : matches r1 s s' -> matches (Alt r1 r2) s s'
| matches_alt_r r1 r2 s s' : matches r2 s s' -> matches (Alt r1 r2) s s'
| matches_star_stop g r s : matches (Star g r) s s
| matches_star_turn g r s s1 s2 :
    matches r s s1 -> matches (Star g r) s1 s2 -> matches (Star g r) s s2
| matches_ahead r s s' : matches r s s' -> matches (Ahead r) s s.

(** Every character class of [r] outside a lookahead lies within [p]. *)
Fixpoint consumes_only (p : ascii -> bool) (r : regex) : Prop :=
  match r with
  | Eps => True
  | Chars q => forall c, q c = true -> p c = true
  | Seq r1 r2 | Alt r1 r2 => consumes_only p r1 /\ consumes_only p r2
  | Star _ r' => consumes_only p r'
  | Ahead _ => True
  end.

(** ** Escapes and the parse actions of the string tokens *)

(** [str.replace(old, new)] for a non-empty [old]: the occurrences are
    taken from left to right and do not overlap.  [skip] counts the
    characters of an occurrence that are still to be passed over. *)
Fixpoint replace_from (old new : string) (skip : nat) (s : string) : string :=
  match s with
  | EmptyString => EmptyString
  | String c rest =>
      match skip with
      | S k => replace_from old new k rest
      | O =>
          if String.prefix old s
          then new ++ replace_from old new (String.length old - 1) rest
          else String c (replace_from old new 0 rest)
      end
  end.

Definition replace (old new s : string) : string := replace_from old new 0 s.

Definition escape (c : ascii) : string := String backslash (String c EmptyString).
Definition single (c : ascii) : string := String c EmptyString.

(** [ConfigParser.REPLACEMENTS], lines 66-75, in the order of the
    literal. *)
Definition REPLACEMENTS : list (string * string) :=
  [ (escape newline, single newline);
    (escape "n", single newline);
    (escape "r", single cr);
    (escape "t", single tab);
    (escape "=", single "=");
    (escape "#", single "#");
    (escape "!", single "!");
    (escape dquote, single dquote) ].

(** [norm_string], lines 85-88, for the items of the table met in the
    order [items]. *)
Definition norm_string_in (items : list (string * string)) (value : string) : string :=
  fold_left (fun v kv => replace (fst kv) (snd kv) v) items value.

Definition norm_string (value : string) : string := norm_string_in REPLACEMENTS value.

(** [unescape_string], lines 90-91; a ConfigUnquotedString is a string. *)
Definition unescape_string (token : string) : value := VStr (norm_string token).

Fixpoint drop_prefix (n : nat) (s : string) : string :=
  match n, s with
  | S n', String _ rest => drop_prefix n' rest
  | _, _ => s
  end.

(** The slice [s[3:-3]]. *)
Definition slice_3_3 (s : string) : string :=
  take_prefix (String.length s - 6) (drop_prefix 3 s).

(** [unescape_multi_string], lines 93-95. *)
Definition unescape_multi_string (token : string) : string := norm_string (slice_3_3 token).


(** ** Predicates of the further statements *)

Definition has_char (p : ascii -> bool) (s : string) : bool := negb (all_chars (fun c => negb (p c)) s).

Definition is_backslash (c : ascii) : bool := Ascii.eqb c backslash.

(** No backslash of [s] is followed by another one. *)
Fixpoint spaced (s : string) : bool :=
  match s with
  | String a (String b _ as rest) =>
      negb (is_backslash a && is_backslash b) && spaced rest
  | _ => true
  end.

(** What the table makes of the character after a backslash. *)
Definition escaped (c : ascii) : option ascii :=
  if Ascii.eqb c newline then Some newline
  else if Ascii.eqb c "n" then Some newline
  else if Ascii.eqb c "r" then Some cr
  else if Ascii.eqb c "t" then Some tab
  else if char_in "=#!" c then Some c
  else if Ascii.eqb c dquote then Some c
  else None.

(** Every escape that [f] knows replaced at once, from left to right. *)
Fixpoint unescape_by (f : ascii -> option ascii) (s : string) : string :=
  match s with
  | EmptyString => EmptyString
  | String a rest =>
      match rest with
      | String b rest' =>
          if is_backslash a
          then match f b with
               | Some r => String r (unescape_by f rest')
               | None => String a (unescape_by f rest)
               end
          else String a (unescape_by f rest)
      | EmptyString => s
      end
  end.

Definition unescape (s : string) : string := unescape_by escaped s.

(** The table as pairs: the character after the backslash and what the
    escape stands for. *)
Definition ESCAPES : list (ascii * ascii) :=
  [ (newline, newline); ("n"%char, newline); ("r"%char, cr); ("t"%char, tab);
    ("="%char, "="%char); ("#"%char, "#"%char); ("!"%char, "!"%char);
    (dquote, dquote) ].

Definition as_replacement (p : ascii * ascii) : string * string :=
  (escape (fst p), single (snd p)).

Fixpoint lookup_escape (l : list (ascii * ascii)) (b : ascii) : option ascii :=
  match l with
  | [] => None
  | (c, r) :: rest => if Ascii.eqb b c then Some r else lookup_escape rest b
  end.

(** [replace] for one escape of the table. *)
Fixpoint replace_pair (c r : ascii) (s : string) : string :=
  match s with
  | EmptyString => EmptyString
  | String a rest =>
      match rest with
      | String b rest' =>
          if is_backslash a && Ascii.eqb b c
          then String r (replace_pair c r rest')
          else String a (replace_pair c r rest)
      | EmptyString => s
      end
  end.

(** The three quotes that open and close a multi-line string. *)
Definition triple_quote : string := String dquote (String dquote (String dquote "")).

(** The characters an unquoted string cannot hold. *)
Definition is_structural (c : ascii) : bool := char_in "[{]}#,=$" c.

(** [s] is blanks and then two slashes or a delimiter of a string. *)
Fixpoint at_string_delimiter (s : string) : bool :=
  match s with
  | String c rest =>
      if is_blank c then at_string_delimiter rest
      else is_string_delimiter c
           || (is_slash c && match rest with
                             | String c' _ => is_slash c'
                             | EmptyString => false
                             end)
  | EmptyString => false
  end.

Definition at_dollar (s : string) : bool :=
  match s with
  | String c _ => Ascii.eqb c "$"
  | EmptyString => false
  end.





(** ** What the parser and the resolver leave alone *)

(** Every successful run of [m] relates the store it ends in to the store
    it began in by [R]. *)
Definition keeps {A} (R : store -> store -> Prop) (m : M A) : Prop :=
  forall st a st', m st = Ok (a, st') -> R st st'.

(** The substitutions and the owners of the concatenations are the same,
    and no tree is gone. *)
Definition resolver_frame (st st' : store) : Prop :=
  substs st' = substs st
  /\ owner <$> pendings st' = owner <$> pendings st
  /\ length (trees st) <= length (trees st').

(** The substitutions and the tokens of the concatenations are the same,
    no tree is gone, and an owner that changed is now the tree [t]. *)
Definition parser_frame (t : nat) (st st' : store) : Prop :=
  substs st' = substs st
  /\ tokens <$> pendings st' = tokens <$> pendings st
  /\ length (trees st) <= length (trees st')
  /\ Forall2 (fun cv cv' => owner cv' = owner cv \/ exists key, owner cv' = Some (t, key))
       (pendings st) (pendings st').

Definition owned_by (t : nat) (st : store) (c : nat) : Prop :=
  exists cv key, pendings st !! c = Some cv /\ owner cv = Some (t, key).

(** The two environments give the same answer for the variable of every
    substitution of the store. *)
Definition agree (env1 env2 : string -> option string) (st : store) : Prop :=
  Forall (fun sub => env1 (variable sub) = env2 (variable sub)) (substs st).

(** The first value of the group is a Python list (line 311). *)
Definition list_headed (values : list value) : bool :=
  match values with
  | VList _ :: _ => true
  | _ => false
  end.

(** The turns of a lazy repetition of [r] before the continuation [k]: the
    text [pre] is consumed turn by turn on the way to [s'], and at the
    start of every turn the continuation has failed. *)
Inductive lazy_path (r : regex) (k : string -> option string) : string -> string -> Prop :=
| lazy_path_stop s' : lazy_path r k "" s'
| lazy_path_turn (t pre s' : string) :
    k (t ++ pre ++ s')%string = None ->
    matches r (t ++ pre ++ s')%string (pre ++ s')%string ->
    lazy_path r k pre s' ->
    lazy_path r k (t ++ pre)%string s'.

(** The body of the repetition of [unquoted_string]: a backslash, blanks
    and a line end, or one character. *)
Definition unquoted_turn : regex :=
  Alt (Seq (Chars (Ascii.eqb backslash))
           (Seq (Star true (Chars is_blank))
                (Chars (fun c => Ascii.eqb c cr || Ascii.eqb c newline))))
      (Chars is_unquoted_char).

(** What the lookahead of [unquoted_string] looks for. *)
Definition unquoted_end : regex :=
  Alt (Chars (char_in "$"))
      (Seq (Star true (Chars is_blank))
           (Alt (Seq (Chars is_slash) (Chars is_slash))
                (Chars is_string_delimiter))).

(** * Facts about strings *)

Lemma string_app_assoc (s t u : string) : ((s ++ t) ++ u = s ++ t ++ u)%string.
Proof. induction s as [|c s IH]; simpl; [reflexivity|]. rewrite IH. reflexivity. Qed.

Lemma string_append_nil_r (s : string) : (s ++ "" = s)%string.
Proof. induction s as [|c s IH]; simpl; [reflexivity|]. rewrite IH. reflexivity. Qed.

(** * Facts about the resolver *)

Section ResolverFacts.

Variable environ : string -> option string.
Variable order : nat -> list nat -> list nat.

Lemma resolve_variable_found st config sub v :
  config_get st config (variable sub) = Some v ->
  _resolve_variable environ st config sub = Ok v.
Proof. unfold _resolve_variable. intros ->. reflexivity. Qed.

Lemma resolve_variable_fallback st config sub :
  config_get st config (variable sub) = None ->
  _resolve_variable environ st config sub =
    match environ (variable sub) with
    | Some text => Ok (VStr text)
    | None => Raise (ConfigSubstitutionException (cannot_resolve_variable sub))
    end.
Proof.
  unfold _resolve_variable. intros ->.
  destruct (environ (variable sub)); reflexivity.
Qed.

(** A substitution whose path holds a pending concatenation is left alone. *)
Lemma resolve_one_pending config st s sub c :
  substs st !! s = Some sub ->
  config_get st config (variable sub) = Some (VValues c) ->
  resolve_one environ config s st = Ok (false, st).
Proof.
  intros Hs Hget. unfold resolve_one, bind, read_subst, get_store.
  rewrite Hs. rewrite (resolve_variable_found _ _ _ _ Hget). reflexivity.
Qed.

(** A lookup that fails in the tree and in the environment aborts the visit. *)
Lemma resolve_one_missing config st s sub :
  substs st !! s = Some sub ->
  config_get st config (variable sub) = None ->
  environ (variable sub) = None ->
  resolve_one environ config s st
  = Raise (ConfigSubstitutionException (cannot_resolve_variable sub)).
Proof.
  intros Hs Hget Henv. unfold resolve_one, bind, read_subst, get_store.
  rewrite Hs. rewrite (resolve_variable_fallback _ _ _ Hget), Henv. reflexivity.
Qed.

Lemma visit_all_raise config s todo working unresolved st e :
  resolve_one environ config s st = Raise e ->
  visit_all environ config (s :: todo) working unresolved st = Raise e.
Proof. intros H. simpl. unfold bind. rewrite H. reflexivity. Qed.

Lemma visit_all_deferred config s todo working unresolved st :
  resolve_one environ config s st = Ok (false, st) ->
  visit_all environ config (s :: todo) working unresolved st
  = visit_all environ config todo working true st.
Proof. intros H. simpl. unfold bind. rewrite H. reflexivity. Qed.

Lemma visit_all_stalled config st todo :
  forall working unresolved,
    stalled config st todo ->
    visit_all environ config todo working unresolved st
    = Ok ((working, match todo with [] => unresolved | _ => true end), st).
Proof.
  induction todo as [|s rest IH]; intros working unresolved Hst.
  - reflexivity.
  - destruct (Hst s) as (sub & c & Hs & Hget); [left|].
    rewrite (visit_all_deferred _ _ _ _ _ _ (resolve_one_pending _ _ _ _ _ Hs Hget)).
    rewrite IH.
    + destruct rest; reflexivity.
    + intros x Hx. apply Hst. right. exact Hx.
Qed.

Lemma stalled_arranged config st working i :
  arranges order -> stalled config st working -> stalled config st (order i working).
Proof.
  intros Hperm Hst s Hs. apply Hst. rewrite <- (Hperm i working). exact Hs.
Qed.

(** Once the working set is stalled, every pass that is left changes nothing
    and the loop runs out. *)
Lemma passes_stalled config st working :
  arranges order -> working <> [] -> stalled config st working ->
  forall n i, passes environ order config n i working st = Exhausted working st.
Proof.
  intros Hperm Hne Hst n. induction n as [|n IH]; intros i.
  - reflexivity.
  - simpl. rewrite visit_all_stalled by (apply stalled_arranged; assumption).
    destruct (order i working) eqn:Ho.
    + exfalso. apply Hne. pose proof (Hperm i working) as Hp.
      rewrite Ho in Hp. apply Permutation_nil_l in Hp. congruence.
    + apply IH.
Qed.



(** [_resolve_substitutions] is the loop followed by its ending. *)
Lemma resolve_substitutions_outcome config substitutions st :
  0 < length substitutions ->
  _resolve_substitutions environ order config substitutions st
  = outcome order config (length substitutions)
      (resolve_loop environ order config substitutions st).
Proof.
  intros Hpos. unfold _resolve_substitutions.
  destruct (decide (0 < length substitutions)); [|contradiction].
  destruct (resolve_loop environ order config substitutions st); reflexivity.
Qed.

Lemma resolve_substitutions_nothing config st :
  _resolve_substitutions environ order config [] st = Ok (config, st).
Proof. reflexivity. Qed.

Lemma subst_records_elem st l s sub :
  s ∈ l -> substs st !! s = Some sub -> sub ∈ subst_records st l.
Proof.
  intros Hs Hsub. unfold subst_records. apply list_elem_of_omap.
  exists s. split; assumption.
Qed.

End ResolverFacts.

(** ** Working sets of at most one member: the order cannot matter *)

Section ShortWorkingSet.

Variable environ : string -> option string.
Variable order : nat -> list nat -> list nat.
Hypothesis order_arranges : arranges order.

Lemma arranged_short i (l : list nat) : length l <= 1 -> order i l = l.
Proof.
  intros Hl. pose proof (order_arranges i l) as Hp.
  destruct l as [|x [|y l]]; simpl in Hl; [| |lia].
  - apply Permutation_nil_r in Hp. exact Hp.
  - apply Permutation_singleton_r in Hp. exact Hp.
Qed.

Lemma visit_all_shrinks config todo :
  forall working unresolved st working' unresolved' st',
    visit_all environ config todo working unresolved st
    = Ok ((working', unresolved'), st') ->
    length working' <= length working.
Proof.
  induction todo as [|s rest IH]; intros working unresolved st working' unresolved' st' H.
  - simpl in H. injection H as <- <- <-. lia.
  - simpl in H. unfold bind in H.
    destruct (resolve_one environ config s st) as [[[] st1]|e]; [| |discriminate].
    + apply IH in H. pose proof (length_filter (fun x => x <> s) working). lia.
    + apply IH in H. exact H.
Qed.

Lemma passes_short config n :
  forall i working st,
    length working <= 1 ->
    passes environ order config n i working st
    = passes environ in_order config n i working st.
Proof.
  induction n as [|n IH]; intros i working st Hl.
  - reflexivity.
  - simpl. rewrite (arranged_short i working Hl). unfold in_order at 1.
    destruct (visit_all environ config working working false st)
      as [[[working' unresolved] st']|e] eqn:Hv; [|reflexivity].
    destruct unresolved; [|reflexivity].
    apply IH. apply visit_all_shrinks in Hv. lia.
Qed.

Lemma passes_short_working config n :
  forall i working st,
    length working <= 1 ->
    match passes environ order config n i working st with
    | Broke _ working' _ | Exhausted working' _ => length working' <= 1
    | RaisedInPass _ _ => True
    end.
Proof.
  induction n as [|n IH]; intros i working st Hl.
  - exact Hl.
  - simpl.
    destruct (visit_all environ config (order i working) working false st)
      as [[[working' unresolved] st']|e] eqn:Hv; [|exact I].
    apply visit_all_shrinks in Hv.
    destruct unresolved; [apply IH|]; lia.
Qed.

(** With a single substitution the resolver does the same in every order. *)
Lemma resolve_single_any_order config s st :
  _resolve_substitutions environ order config [s] st
  = _resolve_substitutions environ in_order config [s] st.
Proof.
  rewrite !resolve_substitutions_outcome by (simpl; lia).
  unfold resolve_loop. simpl length.
  assert (Hl : length (remove_dups [s]) <= 1) by (vm_compute; lia).
  pose proof (passes_short_working config 1 0 (remove_dups [s]) st Hl) as Hw.
  rewrite passes_short in * by exact Hl.
  destruct (passes environ in_order config 1 0 (remove_dups [s]) st); try reflexivity.
  simpl. rewrite (arranged_short 1 working Hw). reflexivity.
Qed.

End ShortWorkingSet.

(** ** A substitution that is the whole value of its key *)

Lemma values_put_ok st c cv i v :
  pendings st !! c = Some cv ->
  i < length (tokens cv) ->
  values_put c i v st
  = Ok (tt, mkStore (trees st)
                    (<[c := mkValues (<[i := v]> (tokens cv)) (owner cv)]> (pendings st))
                    (substs st)).
Proof.
  intros Hc Hi. unfold values_put, bind, read_values. rewrite Hc.
  destruct (decide (i < length (tokens cv))); [reflexivity|contradiction].
Qed.





(** ** A substitution inside a concatenation of text *)

Lemma concat_strings_app l1 l2 :
  concat_strings (l1 ++ l2) = (concat_strings l1 ++ concat_strings l2)%string.
Proof.
  induction l1 as [|s l1 IH]; simpl; [reflexivity|].
  rewrite IH, string_app_assoc. reflexivity.
Qed.

Lemma scalar_is_no_subst v : is_scalar v = true -> is_subst v = false.
Proof. destruct v; simpl; intros H; try reflexivity; discriminate. Qed.

Lemma scalars_hold_no_subst toks : forallb is_scalar toks = true -> existsb is_subst toks = false.
Proof.
  induction toks as [|v toks IH]; simpl; [reflexivity|].
  intros H. apply andb_true_iff in H as [Hv Ht].
  rewrite (scalar_is_no_subst v Hv), IH by exact Ht. reflexivity.
Qed.

(** Two or more scalar tokens are joined as text. *)
Lemma transform_scalars st c a b rest o :
  pendings st !! c = Some (mkValues (a :: b :: rest) o) ->
  forallb is_scalar (a :: b :: rest) = true ->
  transform c st
  = Ok (TValue (VStr (concat_strings (map format_str (a :: b :: rest)))), st).
Proof.
  intros Hc Hs. unfold transform, bind, read_values. rewrite Hc.
  cbn [tokens]. rewrite (scalars_hold_no_subst _ Hs), Hs. reflexivity.
Qed.

Lemma two_or_more (pre post : list value) (v : value) :
  pre ++ post <> [] -> exists a b rest, pre ++ v :: post = a :: b :: rest.
Proof.
  intros Hne. destruct pre as [|p1 [|p2 pre]].
  - destruct post as [|q post]; [destruct Hne; reflexivity|]. simpl. eauto.
  - simpl. eauto.
  - simpl. eauto.
Qed.

(** The white space a string gets at position [length pre] of
    [pre ++ _ :: post]. *)
Lemma formatted_in_run text w (pre post : list value) :
  formatted_resolved_value (VStr text) w (length pre) (length (pre ++ VSubst 0 :: post))
  = VStr (text ++ match post with [] => "" | _ => w end).
Proof.
  unfold formatted_resolved_value. rewrite length_app. simpl length.
  destruct post as [|q post]; simpl length.
  - destruct (Z.ltb_spec (Z.of_nat (length pre)) (Z.of_nat (length pre + 1) - 1)); [lia|].
    rewrite string_append_nil_r. reflexivity.
  - destruct (Z.ltb_spec (Z.of_nat (length pre))
                (Z.of_nat (length pre + S (S (length post))) - 1)); [reflexivity|lia].
Qed.

(** A substitution that resolves to a string, among tokens that are text:
    the key gets the text before, the string, the white space that followed
    the substitution unless it is the last token, and the text after. *)
Lemma resolve_one_in_text environ config st s sub text c pre post t key entries :
  substs st !! s = Some sub ->
  config_get st config (variable sub) = Some (VStr text) ->
  parent sub = Some c -> index sub = Some (length pre) ->
  pendings st !! c = Some (mkValues (pre ++ VSubst s :: post) (Some (t, key))) ->
  forallb is_scalar pre = true -> forallb is_scalar post = true ->
  pre ++ post <> [] ->
  trees st !! t = Some entries ->
  exists st',
    resolve_one environ config s st = Ok (true, st')
    /\ trees st' !! t
       = Some (assoc_set key
                 (VStr (concat_strings (map format_str pre)
                          ++ (text ++ match post with [] => "" | _ => ws sub end)
                          ++ concat_strings (map format_str post)))
                 entries).
Proof.
  intros Hs Hget Hp Hi Hc Hpre Hpost Hne Ht.
  assert (Hlt : c < length (pendings st)) by (eapply lookup_lt_Some; eassumption).
  set (v := VStr (text ++ match post with [] => "" | _ => ws sub end)).
  set (st1 := mkStore (trees st)
                (<[c := mkValues (pre ++ v :: post) (Some (t, key))]> (pendings st))
                (substs st)).
  assert (Hc1 : pendings st1 !! c = Some (mkValues (pre ++ v :: post) (Some (t, key))))
    by (apply list_lookup_insert_eq; exact Hlt).
  assert (Hall : forallb is_scalar (pre ++ v :: post) = true).
  { rewrite forallb_app. simpl. rewrite Hpre, Hpost. reflexivity. }
  destruct (two_or_more pre post v Hne) as (a & b & rest & Hshape).
  assert (Hput : values_put c (length pre)
                   (formatted_resolved_value (VStr text) (ws sub) (length pre)
                      (length (pre ++ VSubst s :: post))) st
                 = Ok (tt, st1)).
  { rewrite (values_put_ok st c _ _ _ Hc)
      by (cbn [tokens]; rewrite length_app; simpl; lia).
    cbn [tokens owner].
    replace (length (pre ++ VSubst s :: post)) with (length (pre ++ VSubst 0 :: post))
      by (rewrite !length_app; reflexivity).
    rewrite formatted_in_run. fold v.
    rewrite insert_app_r_alt by lia. rewrite Nat.sub_diag. reflexivity. }
  assert (Hrep : replace_token sub (VStr text) st
                 = Ok (tt, mkStore
                             (<[t := assoc_set key
                                       (VStr (concat_strings (map format_str (pre ++ v :: post))))
                                       entries]> (trees st))
                             (pendings st1) (substs st))).
  { unfold replace_token. rewrite Hp, Hi. unfold bind at 1.
    unfold read_values at 1. rewrite Hc. unfold bind at 1. cbn [tokens].
    rewrite Hput.
    unfold bind at 1. rewrite Hshape in Hc1, Hall.
    rewrite (transform_scalars st1 c a b rest _ Hc1 Hall). rewrite <- Hshape.
    unfold bind at 1. unfold first_or_self, ret.
    unfold bind at 1. unfold read_values. rewrite Hc1. cbn [owner].
    unfold tree_setitem. change (trees st1) with (trees st). rewrite Ht. reflexivity. }
  eexists. split.
  - unfold resolve_one, bind, read_subst, get_store. rewrite Hs.
    rewrite (resolve_variable_found _ _ _ _ _ Hget). rewrite Hrep. reflexivity.
  - cbn [trees].
    rewrite list_lookup_insert_eq by (eapply lookup_lt_Some; eassumption).
    rewrite map_app, concat_strings_app. reflexivity.
Qed.

(** * The resolver on documents *)

Lemma in_order_arranges : arranges in_order.
Proof. intros i l. reflexivity. Qed.

Lemma reversed_arranges : arranges reversed.
Proof. intros i l. unfold reversed. symmetry. apply Permutation_rev. Qed.

Lemma take_space_all w : all_space w = true -> take_space w = w.
Proof.
  induction w as [|c w IH]; simpl; [reflexivity|].
  intros H. apply andb_true_iff in H as [Hc Hw]. rewrite Hc, IH by exact Hw. reflexivity.
Qed.

(** Evaluates [parse] on a closed document with one substitution, whatever
    the environment and the order. *)
Ltac run_single Harr :=
  unfold parse, bind;
  match goal with
  | |- context [?doc empty_store] =>
      let d := fresh "d" in
      let Hd := fresh "Hd" in
      remember (doc empty_store) as d eqn:Hd; vm_compute in Hd; subst d
  end;
  cbn [fst snd];
  rewrite (resolve_single_any_order _ _ Harr);
  vm_compute; reflexivity.

(** C8: when no substitution was recorded the resolver returns the tree it
    was given and leaves every object as it was, so every [get] answers after
    the resolution what it answered before. *)
Theorem resolve_nothing_is_noop (environ : string -> option string)
  (order : nat -> list nat -> list nat) (config : value) (st : store) :
  _resolve_substitutions environ order config [] st = Ok (config, st)
  /\ forall key,
       lookup (_resolve_substitutions environ order config [] st) key
       = config_get st config key.
Proof.
  rewrite resolve_substitutions_nothing. split; [|intros key]; reflexivity.
Qed.

(** C4: a substitution whose path [get] does not find is looked up in the
    environment under the same path string; when the environment has nothing
    either, [_resolve_variable] raises the substitution error that names the
    path with its line and column, and the resolver that meets such a
    substitution raises it. *)
Theorem absent_path_falls_back_to_environment (environ : string -> option string)
  (st : store) (config : value) (sub : ConfigSubstitution)
  (Habsent : config_get st config (variable sub) = None) :
  _resolve_variable environ st config sub =
    match environ (variable sub) with
    | Some text => Ok (VStr text)
    | None =>
        Raise (ConfigSubstitutionException
                 ("Cannot resolve variable ${" ++ variable sub ++ "} (line: "
                    ++ string_of_nat (lineno (loc sub) (instring sub)) ++ ", col: "
                    ++ string_of_nat (col (loc sub) (instring sub)) ++ ")"))
    end
  /\ forall order substitutions s todo,
       environ (variable sub) = None ->
       substs st !! s = Some sub ->
       s ∈ substitutions ->
       order 0 (remove_dups substitutions) = s :: todo ->
       _resolve_substitutions environ order config substitutions st
       = Raise (ConfigSubstitutionException (cannot_resolve_variable sub)).
Proof.
  split.
  - apply resolve_variable_fallback. exact Habsent.
  - intros order substitutions s todo Henv Hs Hin Hfirst.
    assert (Hpos : 0 < length substitutions).
    { destruct substitutions; [apply elem_of_nil in Hin; destruct Hin|simpl; lia]. }
    rewrite resolve_substitutions_outcome by exact Hpos.
    unfold resolve_loop. destruct (length substitutions) as [|n]; [lia|].
    simpl. rewrite Hfirst.
    rewrite (visit_all_raise _ _ _ _ _ _ _ _
               (resolve_one_missing _ _ _ _ _ Hs Habsent Henv)).
    reflexivity.
Qed.

(** The path of [{a: ${HOME}}] is not in the tree: with an empty environment
    the resolver raises, naming [HOME] at line 1, column 5. *)
Lemma absent_path_witness :
  _resolve_variable no_environ (parsed_store home_doc) (parsed_config home_doc)
    (parsed_subst home_doc 0)
  = Raise (ConfigSubstitutionException "Cannot resolve variable ${HOME} (line: 1, col: 5)")
  /\ parse no_environ in_order home_doc empty_store
     = Raise (ConfigSubstitutionException "Cannot resolve variable ${HOME} (line: 1, col: 5)")
  /\ lookup (parse home_environ in_order home_doc empty_store) "a" = Some (VStr "/root").
Proof.
  split; [|split].
  - exact (proj1 (absent_path_falls_back_to_environment no_environ
                    (parsed_store home_doc) (parsed_config home_doc)
                    (parsed_subst home_doc 0) eq_refl)).
  - exact (proj2 (absent_path_falls_back_to_environment no_environ
                    (parsed_store home_doc) (parsed_config home_doc)
                    (parsed_subst home_doc 0) eq_refl)
             in_order [0] 0 [] eq_refl eq_refl (list_elem_of_here 0 []) eq_refl).
  - reflexivity.
Defined.

Lemma match_SUBSTITUTION_name w :
  all_space w = true -> match_SUBSTITUTION ("${name}" ++ w) = Some ("name", w).
Proof.
  intros Hw. cbn. rewrite (take_space_all w Hw). reflexivity.
Qed.



(** C5: a resolved string that is not the last token of its concatenation
    gets the white space that followed the substitution in the source, and
    nothing else does; among tokens that are text, the key then holds the
    text before, the string, that white space and the text after.  So
    [{name: "x", full: ${name}<w>" suffix"}] gives
    [full = "x" ++ w ++ " suffix"] for every run [w] of white space. *)
Theorem substitution_whitespace_preserved (environ : string -> option string)
  (order : nat -> list nat -> list nat) (Harr : arranges order) :
  (forall text w i n,
      i + 1 < n -> formatted_resolved_value (VStr text) w i n = VStr (text ++ w))
  /\ (forall text w i n,
        n <= i + 1 -> formatted_resolved_value (VStr text) w i n = VStr text)
  /\ (forall v w i n,
        (forall text, v <> VStr text) -> formatted_resolved_value v w i n = v)
  /\ (forall config st s sub text c pre post t key entries,
        substs st !! s = Some sub ->
        config_get st config (variable sub) = Some (VStr text) ->
        parent sub = Some c -> index sub = Some (length pre) ->
        pendings st !! c = Some (mkValues (pre ++ VSubst s :: post) (Some (t, key))) ->
        forallb is_scalar pre = true -> forallb is_scalar post = true ->
        pre ++ post <> [] ->
        trees st !! t = Some entries ->
        exists st',
          resolve_one environ config s st = Ok (true, st')
          /\ trees st' !! t
             = Some (assoc_set key
                       (VStr (concat_strings (map format_str pre)
                                ++ (text ++ match post with [] => "" | _ => ws sub end)
                                ++ concat_strings (map format_str post)))
                       entries))
  /\ (forall w,
        all_space w = true ->
        lookup (parse environ order (concat_doc w) empty_store) "full"
        = Some (VStr ("x" ++ w ++ " suffix")))
  /\ lookup (parse environ order last_doc empty_store) "full" = Some (VStr "prefix x").
Proof.
  split; [|split; [|split; [|split; [|split]]]].
  - intros text w i n Hlt. unfold formatted_resolved_value.
    destruct (Z.ltb_spec (Z.of_nat i) (Z.of_nat n - 1)); [reflexivity|lia].
  - intros text w i n Hle. unfold formatted_resolved_value.
    destruct (Z.ltb_spec (Z.of_nat i) (Z.of_nat n - 1)); [lia|reflexivity].
  - intros v w i n Hv. destruct v; try reflexivity. destruct (Hv s). reflexivity.
  - intros config st s sub text c pre post t key entries.
    apply resolve_one_in_text.
  - intros w Hw. unfold parse, bind.
    remember (concat_doc w empty_store) as d eqn:Hd.
    unfold concat_doc, create_substitution in Hd.
    rewrite (match_SUBSTITUTION_name w Hw) in Hd.
    vm_compute in Hd. subst d. cbn [fst snd].
    rewrite (resolve_single_any_order _ _ Harr). vm_compute. reflexivity.
  - run_single Harr.
Qed.

(** No space, one space and three spaces between the substitution and the
    quoted string. *)
Lemma substitution_whitespace_witness :
  lookup (parse no_environ in_order (concat_doc "") empty_store) "full"
  = Some (VStr "x suffix")
  /\ lookup (parse no_environ in_order (concat_doc " ") empty_store) "full"
     = Some (VStr "x  suffix")
  /\ lookup (parse no_environ in_order (concat_doc "   ") empty_store) "full"
     = Some (VStr "x    suffix").
Proof.
  pose proof (proj1 (proj2 (proj2 (proj2 (proj2
    (substitution_whitespace_preserved no_environ in_order in_order_arranges))))))
    as H.
  split; [|split].
  - exact (H "" eq_refl).
  - exact (H " " eq_refl).
  - exact (H "   " eq_refl).
Defined.

Lemma check_for_cycles_names st l (s : nat) sub :
  s ∈ l -> substs st !! s = Some sub ->
  unresolved_entry sub ∈ map unresolved_entry (subst_records st l).
Proof.
  intros Hs Hsub. apply list_elem_of_fmap. exists sub. split; [reflexivity|].
  eapply subst_records_elem; eassumption.
Qed.

(** C2, as the code has it: when every substitution left in the working set
    looks up to a pending concatenation (a cycle through direct lookups),
    no pass changes anything, the loop runs out and the resolver raises the
    substitution error whose message has one entry per member of the
    working set, with its path, line and column; what was resolved in
    earlier passes is written and not named.  So [{a: ${b}, b: ${a}}] names
    both paths, [{c: ${d}, a: ${b}, b: ${a}, d: 1}] sets [c] to 1 and names
    [${b}] and [${a}] only, and in [{a: ${b}, b: ${a}, c: ${a}}] the
    substitution of [c], which only asks for the cycle, is named with it. *)
Theorem direct_cycle_is_reported (environ : string -> option string)
  (order : nat -> list nat -> list nat) (Harr : arranges order) :
  (forall config st working n i,
      working <> [] -> stalled config st working ->
      passes environ order config n i working st = Exhausted working st)
  /\ (forall config substitutions st working st',
        0 < length substitutions ->
        resolve_loop environ order config substitutions st = Exhausted working st' ->
        _resolve_substitutions environ order config substitutions st
        = Raise (ConfigSubstitutionException
                   ("Cannot resolve "
                      ++ join ", " (map unresolved_entry
                                      (subst_records st' (order (length substitutions) working)))
                      ++ ". Check for cycles."))
        /\ forall (s : nat) (sub : ConfigSubstitution),
             s ∈ working -> substs st' !! s = Some sub ->
             ("${" ++ variable sub ++ "}: (line: "
                ++ string_of_nat (lineno (loc sub) (instring sub)) ++ ", col: "
                ++ string_of_nat (col (loc sub) (instring sub)) ++ ")")%string
             ∈ map unresolved_entry
                 (subst_records st' (order (length substitutions) working)))
  /\ parse environ in_order cycle_doc empty_store
     = Raise (ConfigSubstitutionException
                "Cannot resolve ${b}: (line: 1, col: 5), ${a}: (line: 1, col: 14). Check for cycles.")
  /\ parse environ reversed cycle_doc empty_store
     = Raise (ConfigSubstitutionException
                "Cannot resolve ${a}: (line: 1, col: 14), ${b}: (line: 1, col: 5). Check for cycles.")
  /\ parse environ in_order mixed_doc empty_store
     = Raise (ConfigSubstitutionException
                "Cannot resolve ${b}: (line: 1, col: 14), ${a}: (line: 1, col: 23). Check for cycles.")
  /\ parse environ in_order dependent_doc empty_store
     = Raise (ConfigSubstitutionException
                "Cannot resolve ${b}: (line: 1, col: 5), ${a}: (line: 1, col: 14), ${a}: (line: 1, col: 23). Check for cycles.")
  /\ (exists st',
        resolve_loop environ in_order (parsed_config mixed_doc)
          (parsed_substitutions mixed_doc) (parsed_store mixed_doc)
        = Exhausted [1; 2] st'
        /\ config_get st' (parsed_config mixed_doc) "c" = Some (VInt 1)
        /\ config_get st' (parsed_config mixed_doc) "d" = Some (VInt 1)).
Proof.
  split; [|split; [|split; [|split; [|split; [|split]]]]].
  - intros config st working n i Hne Hst. apply passes_stalled; assumption.
  - intros config substitutions st working st' Hpos Hloop. split.
    + rewrite resolve_substitutions_outcome by exact Hpos. rewrite Hloop. reflexivity.
    + intros s sub Hs Hsub.
      apply (check_for_cycles_names st' _ s sub); [|exact Hsub].
      rewrite (Harr (length substitutions) working). exact Hs.
  - vm_compute. reflexivity.
  - vm_compute. reflexivity.
  - vm_compute. reflexivity.
  - vm_compute. reflexivity.
  - eexists. vm_compute. repeat split.
Qed.

(** The direct cycle [{a: ${b}, b: ${a}}], visited in order. *)
Lemma direct_cycle_witness :
  parse no_environ in_order cycle_doc empty_store
  = Raise (ConfigSubstitutionException
             "Cannot resolve ${b}: (line: 1, col: 5), ${a}: (line: 1, col: 14). Check for cycles.").
Proof.
  exact (proj1 (proj2 (proj2
           (direct_cycle_is_reported no_environ in_order in_order_arranges)))).
Defined.

(** C2 as stated fails on [{a {x: ${b}}, b {y: ${a}}}]: [a.x] asks for [b],
    whose [y] asks for [a], yet each lookup yields an object, which line 223
    takes for resolved; the resolver returns, in either order, and [a.x.y]
    is [a] again.  And in [{a: ${zz}, b: ${c}, c: ${b}}] the cycle of [b]
    and [c] is never named: the exception is the one for [zz]. *)
Lemma cycle_through_objects_is_not_reported :
  (exists st, parse no_environ in_order nested_cycle_doc empty_store = Ok (VTree 2, st))
  /\ (exists st, parse no_environ reversed nested_cycle_doc empty_store = Ok (VTree 2, st))
  /\ lookup (parse no_environ in_order nested_cycle_doc empty_store) "a"
     = lookup (parse no_environ in_order nested_cycle_doc empty_store) "a.x.y"
  /\ lookup (parse no_environ in_order nested_cycle_doc empty_store) "a.x.y" = Some (VTree 0)
  /\ parse no_environ reversed missing_doc empty_store
     = Raise (ConfigSubstitutionException "Cannot resolve variable ${zz} (line: 1, col: 5)").
Proof.
  split; [|split; [|split; [|split]]].
  - eexists. vm_compute. reflexivity.
  - eexists. vm_compute. reflexivity.
  - vm_compute. reflexivity.
  - vm_compute. reflexivity.
  - vm_compute. reflexivity.
Qed.

(** C6, as the code has it: a value found in the tree is what
    [_resolve_variable] returns, composite or not and whatever the
    concatenation it is meant for; the composite test of lines 205-212 reads
    the environment's value only, which is a string, so its error is never
    raised and whatever the environment gives is a string. *)
Theorem composite_from_tree_is_returned (environ : string -> option string)
  (st : store) (config : value) (sub : ConfigSubstitution) :
  (forall v, config_get st config (variable sub) = Some v ->
             _resolve_variable environ st config sub = Ok v)
  /\ (forall type,
        _resolve_variable environ st config sub
        <> Raise (ConfigSubstitutionException (cannot_substitute_variable sub type)))
  /\ (config_get st config (variable sub) = None ->
      forall v, _resolve_variable environ st config sub = Ok v ->
                exists text, v = VStr text /\ is_composite v = false).
Proof.
  split; [|split].
  - intros v Hget. apply resolve_variable_found. exact Hget.
  - intros type. unfold _resolve_variable.
    destruct (config_get st config (variable sub)); [discriminate|].
    destruct (environ (variable sub)); [discriminate|].
    unfold cannot_resolve_variable, cannot_substitute_variable. simpl. discriminate.
  - intros Hget v Hv. rewrite (resolve_variable_fallback _ _ _ _ Hget) in Hv.
    destruct (environ (variable sub)) as [text|]; [|discriminate].
    injection Hv as <-. exists text. split; reflexivity.
Qed.

(** C6 as stated fails on [{a {x: 1}, b: ${a} {y: 2}}]: the substitution
    stands in a concatenation of two tokens and resolves to an object; no
    error is raised, and [b] is the two objects merged. *)
Lemma composite_in_concatenation_is_accepted :
  (exists st, parse no_environ in_order composite_doc empty_store = Ok (VTree 2, st))
  /\ config_get (parsed_store composite_doc) (parsed_config composite_doc) "a" = Some (VTree 0)
  /\ (tokens <$> pendings (parsed_store composite_doc) !! 2) = Some [VSubst 0; VTree 1]
  /\ lookup (parse no_environ in_order composite_doc empty_store) "b.x" = Some (VInt 1)
  /\ lookup (parse no_environ in_order composite_doc empty_store) "b.y" = Some (VInt 2).
Proof.
  split; [|split; [|split; [|split]]].
  - eexists. vm_compute. reflexivity.
  - vm_compute. reflexivity.
  - vm_compute. reflexivity.
  - vm_compute. reflexivity.
  - vm_compute. reflexivity.
Qed.





(** C7 fails on [{a: ${b}, a: ${c}, b: 1, c: 2}]: both pending values of [a]
    write to the key [a] of the root (lines 323-324 and 235), so the one
    visited last wins: [a = 2] when the set is visited in the order of
    creation, [a = 1] in the opposite order.  It fails as well on
    [{x: ${a.b}, a: ${c}, c {b: 1}}]: visited before [a] is resolved, the
    path [a.b] is not found and the environment answers (or the resolver
    raises); visited after, it is found in the tree. *)
Theorem twice_assigned_key_follows_the_order :
  arranges in_order /\ arranges reversed
  /\ lookup (parse no_environ in_order twice_doc empty_store) "a" = Some (VInt 2)
  /\ lookup (parse no_environ reversed twice_doc empty_store) "a" = Some (VInt 1)
  /\ lookup (parse through_environ in_order through_doc empty_store) "x" = Some (VStr "E")
  /\ lookup (parse through_environ reversed through_doc empty_store) "x" = Some (VInt 1)
  /\ parse no_environ in_order through_doc empty_store
     = Raise (ConfigSubstitutionException "Cannot resolve variable ${a.b} (line: 1, col: 5)")
  /\ lookup (parse no_environ reversed through_doc empty_store) "x" = Some (VInt 1).
Proof.
  split; [exact in_order_arranges|]. split; [exact reversed_arranges|].
  repeat split; vm_compute; reflexivity.
Qed.

(** C3 fails on [{a {y: 1}, a {x: ${b}}, b: 2}]: the pending value of [x]
    records the second object as its owner (lines 323-324), the merge moves
    it into the first, and the resolved value is written to the second
    (line 235); [parse] returns a tree in which [a.x] is still the pending
    concatenation. *)
Theorem merged_object_keeps_pending_value :
  (exists st, parse no_environ in_order merged_doc empty_store = Ok (VTree 2, st))
  /\ lookup (parse no_environ in_order merged_doc empty_store) "a.x" = Some (VValues 1)
  /\ lookup (parse no_environ reversed merged_doc empty_store) "a.x" = Some (VValues 1)
  /\ lookup (parse no_environ in_order merged_doc empty_store) "a.y" = Some (VInt 1).
Proof.
  split; [|split; [|split]].
  - eexists. vm_compute. reflexivity.
  - vm_compute. reflexivity.
  - vm_compute. reflexivity.
  - vm_compute. reflexivity.
Qed.

(** * Facts about the scalar grammar *)

Local Open Scope string_scope.

Lemma turns_sound r g k :
  (forall s k' x, bt r s k' = Some x -> exists s', matches r s s' /\ k' s' = Some x) ->
  forall n s x,
    turns (bt r) g k n s = Some x ->
    exists s', matches (Star g r) s s' /\ k s' = Some x.
Proof.
  intros Hbody n. induction n as [|n IH]; intros s x H; simpl in H.
  - exists s. split; [apply matches_star_stop|exact H].
  - assert (Hturn : bt r s (turns (bt r) g k n) = Some x ->
                    exists s', matches (Star g r) s s' /\ k s' = Some x).
    { intros Hb. apply Hbody in Hb as (s1 & M1 & Hb).
      apply IH in Hb as (s2 & M2 & Hk). exists s2.
      split; [eapply matches_star_turn; eassumption|exact Hk]. }
    assert (Hstop : k s = Some x -> exists s', matches (Star g r) s s' /\ k s' = Some x).
    { intros Hk. exists s. split; [apply matches_star_stop|exact Hk]. }
    destruct g; unfold or_else in H.
    + destruct (bt r s (turns (bt r) true k n)) eqn:E; [|auto].
      injection H as ->. auto.
    + destruct (k s) eqn:E; [|auto]. injection H as ->. auto.
Qed.

(** Whatever the matcher answers is a match of the expression. *)
Lemma bt_sound r :
  forall s k x, bt r s k = Some x -> exists s', matches r s s' /\ k s' = Some x.
Proof.
  induction r as [|p|r1 IH1 r2 IH2|r1 IH1 r2 IH2|g r IH|r IH]; intros s k x H; simpl in H.
  - exists s. split; [apply matches_eps|exact H].
  - destruct s as [|c rest]; [discriminate|].
    destruct (p c) eqn:Hp; [|discriminate].
    exists rest. split; [apply matches_chars; exact Hp|exact H].
  - apply IH1 in H as (s1 & M1 & H). apply IH2 in H as (s2 & M2 & H).
    exists s2. split; [eapply matches_seq; eassumption|exact H].
  - unfold or_else in H. destruct (bt r1 s k) eqn:E.
    + injection H as ->. apply IH1 in E as (s' & M & Hk).
      exists s'. split; [apply matches_alt_l; exact M|exact Hk].
    + apply IH2 in H as (s' & M & Hk).
      exists s'. split; [apply matches_alt_r; exact M|exact Hk].
  - eapply turns_sound; eassumption.
  - destruct (bt r s Some) eqn:E; [|discriminate].
    apply IH in E as (s' & M & _).
    exists s. split; [eapply matches_ahead; exact M|exact H].
Qed.

Lemma re_match_sound r s rest : re_match r s = Some rest -> matches r s rest.
Proof.
  intros H. apply bt_sound in H as (s' & M & Hs). injection Hs as <-. exact M.
Qed.

Lemma all_chars_app p s t :
  all_chars p s = true -> all_chars p t = true -> all_chars p (s ++ t) = true.
Proof.
  induction s as [|c s IH]; simpl; [auto|].
  intros H Ht. apply andb_true_iff in H as [Hc Hs]. rewrite Hc. simpl. auto.
Qed.

(** What a match consumes is made of the characters of its classes. *)
Lemma matches_consumes p r s s' :
  matches r s s' -> consumes_only p r ->
  exists pre, s = pre ++ s' /\ all_chars p pre = true.
Proof.
  induction 1 as [s|q c s Hq|r1 r2 s s1 s2 _ IH1 _ IH2|r1 r2 s s' _ IH|r1 r2 s s' _ IH
                 |g r s|g r s s1 s2 _ IH1 _ IH2|r s s' _ _]; intros Hc.
  - exists "". split; reflexivity.
  - exists (String c ""). split; [reflexivity|]. simpl. rewrite (Hc c Hq). reflexivity.
  - destruct Hc as [Hc1 Hc2].
    destruct (IH1 Hc1) as (p1 & -> & H1). destruct (IH2 Hc2) as (p2 & -> & H2).
    exists (p1 ++ p2). split; [symmetry; apply string_app_assoc|].
    apply all_chars_app; assumption.
  - apply IH. apply Hc.
  - apply IH. apply Hc.
  - exists "". split; reflexivity.
  - destruct (IH1 Hc) as (p1 & -> & H1). destruct (IH2 Hc) as (p2 & -> & H2).
    exists (p1 ++ p2). split; [symmetry; apply string_app_assoc|].
    apply all_chars_app; assumption.
  - exists "". split; reflexivity.
Qed.

Ltac by_cases_on_char c :=
  destruct c as [[] [] [] [] [] [] [] []]; try reflexivity; try discriminate.

Lemma blank_is_no_delimiter c : is_blank c = true -> is_number_delimiter c = false.
Proof. by_cases_on_char c. Qed.

Lemma delimiter_is_not_blank c : is_number_delimiter c = true -> is_blank c = false.
Proof. by_cases_on_char c. Qed.

Lemma slash_is_not_blank c : is_slash c = true -> is_blank c = false.
Proof. by_cases_on_char c. Qed.

Lemma follower_is_no_number_char c :
  may_follow_number c = true -> is_number_char c = false.
Proof. by_cases_on_char c. Qed.

Lemma number_text_consumes : consumes_only is_number_char number_text.
Proof.
  unfold number_text, Opt, Plus. simpl.
  repeat split; try exact I; intros c; by_cases_on_char c.
Qed.

Lemma blanks_then_delimiter g s u :
  matches (Star g (Chars is_blank)) s u ->
  at_number_delimiter u = true -> at_number_delimiter s = true.
Proof.
  intros M. remember (Star g (Chars is_blank)) as r eqn:Hr.
  induction M as [| | | | |g' r' s|g' r' s s1 s2 M1 _ M2 IH|]; try discriminate.
  - auto.
  - injection Hr as -> ->. intros Hu. specialize (IH eq_refl Hu).
    inversion M1 as [|q c t Hq| | | | | |]; subst.
    simpl. rewrite Hq. exact IH.
Qed.

Lemma lookahead_sees_delimiter s s' :
  matches number_lookahead s s' -> s' = s /\ at_number_delimiter s = true.
Proof.
  unfold number_lookahead. intros M.
  inversion M as [| | | | | | |r t t' Mla]; subst. split; [reflexivity|].
  inversion Mla as [| |r1 r2 t t1 t2 Mb Md| | | | |]; subst.
  apply (blanks_then_delimiter _ _ _ Mb).
  inversion Md as [| | |r1 r2 t t3 Mc|r1 r2 t t3 Ms| | |]; subst.
  - inversion Mc as [|q c t Hq| | | | | |]; subst.
    simpl. rewrite (delimiter_is_not_blank c Hq), Hq. reflexivity.
  - inversion Ms as [| |r1 r2 t t4 t5 Ms1 Ms2| | | | |]; subst.
    inversion Ms1 as [|q c t Hq| | | | | |]; subst.
    inversion Ms2 as [|q' c' t6 Hq'| | | | | |]; subst.
    simpl. rewrite (slash_is_not_blank c Hq), Hq, Hq'.
    rewrite orb_true_r. reflexivity.
Qed.

Lemma at_delimiter_head s :
  at_number_delimiter s = true ->
  exists c rest, s = String c rest /\ may_follow_number c = true.
Proof.
  destruct s as [|c rest]; simpl; [discriminate|]. intros H.
  exists c, rest. split; [reflexivity|]. unfold may_follow_number.
  destruct (is_blank c); [reflexivity|]. simpl.
  destruct (is_number_delimiter c); [reflexivity|]. simpl in *.
  apply andb_true_iff in H as [H _]. exact H.
Qed.

(** Two ways of cutting a text after a run of [p] characters, at a
    character outside [p], cut at the same place. *)
Lemma run_ends_once p s1 : forall s2 c1 c2 t1 t2,
  all_chars p s1 = true -> all_chars p s2 = true ->
  p c1 = false -> p c2 = false ->
  s1 ++ String c1 t1 = s2 ++ String c2 t2 -> c1 = c2.
Proof.
  induction s1 as [|a s1 IH]; intros s2 c1 c2 t1 t2 H1 H2 Hc1 Hc2 Heq.
  - destruct s2 as [|b s2]; simpl in *.
    + congruence.
    + injection Heq as -> _. apply andb_true_iff in H2 as [Hb _]. congruence.
  - destruct s2 as [|b s2]; simpl in *.
    + injection Heq as -> _. apply andb_true_iff in H1 as [Ha _]. congruence.
    + injection Heq as -> Heq.
      apply andb_true_iff in H1 as [_ H1]. apply andb_true_iff in H2 as [_ H2].
      eapply IH; eassumption.
Qed.

Lemma length_app_string (s t : string) :
  String.length (s ++ t) = String.length s + String.length t.
Proof. induction s as [|c s IH]; simpl; [reflexivity|]. rewrite IH. reflexivity. Qed.

Lemma take_prefix_app s t : take_prefix (String.length s) (s ++ t) = s.
Proof. induction s as [|c s IH]; simpl; [destruct t; reflexivity|]. rewrite IH. reflexivity. Qed.

Lemma matched_text_app s t : matched_text (s ++ t) t = s.
Proof.
  unfold matched_text. rewrite length_app_string.
  replace (String.length s + String.length t - String.length t) with (String.length s) by lia.
  apply take_prefix_app.
Qed.

Lemma number_match_ends_at_delimiter s rest :
  re_match number_expr s = Some rest -> at_number_delimiter rest = true.
Proof.
  intros H. apply re_match_sound in H. unfold number_expr in H.
  inversion H as [| |r1 r2 t t1 t2 Mtext Mlook| | | | |]; subst.
  apply lookahead_sees_delimiter in Mlook as [-> Hd]. exact Hd.
Qed.

Lemma number_text_before_other_character p c rest :
  all_chars is_number_char p = true ->
  is_number_char c = false ->
  may_follow_number c = false ->
  re_match number_expr (p ++ String c rest) = None.
Proof.
  intros Hp Hc Hf.
  destruct (re_match number_expr (p ++ String c rest)) as [left|] eqn:E; [exfalso|reflexivity].
  apply re_match_sound in E. unfold number_expr in E.
  inversion E as [| |r1 r2 t t1 t2 Mtext Mlook| | | | |]; subst.
  apply lookahead_sees_delimiter in Mlook as [-> Hd].
  destruct (matches_consumes _ _ _ _ Mtext number_text_consumes) as (pre & Heq & Hpre).
  apply at_delimiter_head in Hd as (d & t & -> & Hd).
  assert (c = d) as ->.
  { eapply (run_ends_once is_number_char p pre); try eassumption.
    apply follower_is_no_number_char. exact Hd. }
  congruence.
Qed.

(** [3.14abc] before the text [tail], which starts at a delimiter: the
    number does not match and the unquoted string takes [3.14abc]. *)
Ltac unquoted_before tail :=
  unfold value_expr, string_expr;
  change (skip_white ("3.14abc" ++ tail)) with ("3.14abc" ++ tail);
  unfold regex_token at 1;
  change (re_match number_expr ("3.14abc" ++ tail))
    with (re_match number_expr ("3.14" ++ String "a" ("bc" ++ tail)));
  rewrite (number_text_before_other_character "3.14" "a" ("bc" ++ tail)
             eq_refl eq_refl eq_refl);
  change (keyword_token "TRUE" TrueLiteral ("3.14abc" ++ tail)) with (@None (scalar * string));
  change (keyword_token "FALSE" FalseLiteral ("3.14abc" ++ tail)) with (@None (scalar * string));
  change (keyword_token "NULL" NullLiteral ("3.14abc" ++ tail)) with (@None (scalar * string));
  change (regex_token multiline_string MultilineString ("3.14abc" ++ tail))
    with (@None (scalar * string));
  change (regex_token quoted_string QuotedString ("3.14abc" ++ tail))
    with (@None (scalar * string));
  unfold or_else, regex_token;
  change (re_match unquoted_string ("3.14abc" ++ tail)) with (Some tail);
  cbv beta iota;
  rewrite matched_text_app; reflexivity.

(** C9, as the code has it: whatever [number_expr] matches is followed,
    after blanks, by a delimiter or two slashes; a run of number characters
    that is followed by any other character is no number.  Before a
    delimiter, [3.14abc] is then the unquoted string [3.14abc]; but when the
    digits are followed by a brace, a bracket or an equals sign no
    alternative of [value_expr] matches at all. *)
Theorem number_needs_a_delimiter :
  (forall s rest, re_match number_expr s = Some rest -> at_number_delimiter rest = true)
  /\ (forall p c rest,
        all_chars is_number_char p = true ->
        is_number_char c = false ->
        may_follow_number c = false ->
        re_match number_expr (p ++ String c rest) = None)
  /\ (forall rest,
        value_expr ("3.14abc" ++ "," ++ rest) = Some (UnquotedString "3.14abc", "," ++ rest))
  /\ (forall rest,
        value_expr ("3.14abc" ++ "}" ++ rest) = Some (UnquotedString "3.14abc", "}" ++ rest))
  /\ (forall rest,
        value_expr ("3.14abc" ++ String newline rest)
        = Some (UnquotedString "3.14abc", String newline rest))
  /\ (forall rest,
        value_expr ("3.14" ++ "," ++ rest) = Some (Number (VFloat "3.14"), "," ++ rest))
  /\ (forall rest,
        value_expr ("42" ++ " }" ++ rest) = Some (Number (VInt 42), " }" ++ rest))
  /\ (forall rest, value_expr ("3.14{" ++ rest) = None)
  /\ (forall rest, value_expr ("3.14[" ++ rest) = None)
  /\ (forall rest, value_expr ("3.14=" ++ rest) = None).
Proof.
  split; [exact number_match_ends_at_delimiter|].
  split; [exact number_text_before_other_character|].
  split; [intros rest; unquoted_before ("," ++ rest)|].
  split; [intros rest; unquoted_before ("}" ++ rest)|].
  split; [intros rest; unquoted_before (String newline rest)|].
  split.
  { intros rest. unfold value_expr.
    change (skip_white ("3.14" ++ "," ++ rest)) with ("3.14" ++ "," ++ rest).
    unfold regex_token at 1.
    change (re_match number_expr ("3.14" ++ "," ++ rest)) with (Some ("," ++ rest)).
    cbv beta iota. rewrite matched_text_app. reflexivity. }
  split.
  { intros rest. unfold value_expr.
    change (skip_white ("42" ++ " }" ++ rest)) with ("42" ++ " }" ++ rest).
    unfold regex_token at 1.
    change (re_match number_expr ("42" ++ " }" ++ rest)) with (Some (" }" ++ rest)).
    cbv beta iota. rewrite matched_text_app. reflexivity. }
  repeat split; intros rest; lazy; reflexivity.
Qed.

(** C9 as stated fails on [3.14=5,], [3.14{x: 1}] and [3.14[1]]: the digits
    are followed by another character and the number does not match, but the
    token is not parsed as a string: no alternative of [value_expr]
    matches. *)
Lemma digits_before_brace_are_no_string :
  re_match number_expr "3.14=5," = None
  /\ string_expr "3.14=5," = None
  /\ value_expr "3.14=5," = None
  /\ value_expr "3.14{x: 1}" = None
  /\ value_expr "3.14[1]" = None
  /\ value_expr "3.14abc," = Some (UnquotedString "3.14abc", ",").
Proof. repeat split; vm_compute; reflexivity. Qed.

(** * Escapes: [REPLACEMENTS] and [norm_string] *)

Lemma string_ind2 (P : string -> Prop) :
  P "" ->
  (forall a, P (String a "")) ->
  (forall a b t, P t -> P (String b t) -> P (String a (String b t))) ->
  forall s, P s.
Proof.
  intros H0 H1 H2 s.
  assert (H : P s /\ forall a, P (String a s)).
  { induction s as [|b t [IHt IHbt]].
    - split; [exact H0|exact H1].
    - split; [apply IHbt|]. intros a. apply H2; [exact IHt|apply IHbt]. }
  exact (proj1 H).
Qed.

Lemma prefix_cons x s1 a s2 :
  String.prefix (String x s1) (String a s2)
  = if ascii_dec x a then String.prefix s1 s2 else false.
Proof. reflexivity. Qed.

Lemma prefix_nil s : String.prefix "" s = true.
Proof. destruct s; reflexivity. Qed.

Lemma prefix_escape c a b t :
  String.prefix (escape c) (String a (String b t)) = is_backslash a && Ascii.eqb b c.
Proof.
  unfold escape, is_backslash. rewrite prefix_cons.
  destruct (ascii_dec backslash a) as [<-|Hne].
  - rewrite Ascii.eqb_refl, prefix_cons, prefix_nil.
    destruct (ascii_dec c b) as [<-|Hne].
    + rewrite Ascii.eqb_refl. reflexivity.
    + symmetry. apply Ascii.eqb_neq. congruence.
  - assert (Ascii.eqb a backslash = false) as -> by (apply Ascii.eqb_neq; congruence).
    reflexivity.
Qed.

Lemma prefix_escape_short c a : String.prefix (escape c) (String a "") = false.
Proof. unfold escape. rewrite prefix_cons. destruct (ascii_dec backslash a); reflexivity. Qed.

Lemma replace_from_step old new a rest :
  replace_from old new 0 (String a rest)
  = if String.prefix old (String a rest)
    then (new ++ replace_from old new (String.length old - 1) rest)%string
    else String a (replace_from old new 0 rest).
Proof. reflexivity. Qed.

Lemma replace_from_skip old new k a rest :
  replace_from old new (S k) (String a rest) = replace_from old new k rest.
Proof. reflexivity. Qed.

(** [str.replace] of one escape is the scan [replace_pair]. *)
Lemma replace_is_pair c r s : replace (escape c) (single r) s = replace_pair c r s.
Proof.
  unfold replace. induction s as [|a|a b t IHt IHbt] using string_ind2.
  - reflexivity.
  - rewrite replace_from_step, prefix_escape_short. reflexivity.
  - rewrite replace_from_step, prefix_escape.
    change (replace_pair c r (String a (String b t)))
      with (if is_backslash a && Ascii.eqb b c
            then String r (replace_pair c r t)
            else String a (replace_pair c r (String b t))).
    destruct (is_backslash a && Ascii.eqb b c).
    + change (String.length (escape c) - 1) with 1.
      rewrite replace_from_skip, IHt. reflexivity.
    + rewrite IHbt. reflexivity.
Qed.

Lemma norm_string_in_pairs l s :
  norm_string_in (map as_replacement l) s
  = fold_left (fun v p => replace_pair (fst p) (snd p) v) l s.
Proof.
  unfold norm_string_in. revert s. induction l as [|[c r] l IH]; intros s; simpl.
  - reflexivity.
  - rewrite replace_is_pair. apply IH.
Qed.

Lemma REPLACEMENTS_pairs : REPLACEMENTS = map as_replacement ESCAPES.
Proof. reflexivity. Qed.

(** The items of the table in another order are the pairs in another
    order. *)
Lemma items_pairs items :
  Permutation items REPLACEMENTS ->
  exists l, items = map as_replacement l /\ Permutation l ESCAPES.
Proof.
  intros Hp. rewrite REPLACEMENTS_pairs in Hp.
  destruct (Permutation_map_inv _ _ Hp) as (l & -> & Hl).
  exists l. split; [reflexivity|]. symmetry. exact Hl.
Qed.

Lemma replace_pair_step c r a b t :
  replace_pair c r (String a (String b t))
  = if is_backslash a && Ascii.eqb b c
    then String r (replace_pair c r t)
    else String a (replace_pair c r (String b t)).
Proof. reflexivity. Qed.

Lemma unescape_by_step f a b t :
  unescape_by f (String a (String b t))
  = if is_backslash a
    then match f b with
         | Some r => String r (unescape_by f t)
         | None => String a (unescape_by f (String b t))
         end
    else String a (unescape_by f (String b t)).
Proof. reflexivity. Qed.

Lemma spaced_step a b t :
  spaced (String a (String b t))
  = negb (is_backslash a && is_backslash b) && spaced (String b t).
Proof. reflexivity. Qed.

(** ** Text without a backslash *)

Lemma replace_pair_plain c r s :
  all_chars (fun a => negb (is_backslash a)) s = true -> replace_pair c r s = s.
Proof.
  induction s as [|a|a b t IHt IHbt] using string_ind2; intros H.
  - reflexivity.
  - reflexivity.
  - rewrite replace_pair_step.
    change (all_chars (fun a => negb (is_backslash a)) (String a (String b t)))
      with (negb (is_backslash a) && all_chars (fun a => negb (is_backslash a)) (String b t))
      in H.
    apply andb_true_iff in H as [Ha H].
    apply negb_true_iff in Ha. rewrite Ha. cbn [andb]. rewrite IHbt by exact H. reflexivity.
Qed.

Lemma fold_pairs_plain l s :
  all_chars (fun a => negb (is_backslash a)) s = true ->
  fold_left (fun v p => replace_pair (fst p) (snd p) v) l s = s.
Proof.
  intros H. induction l as [|[c r] l IH]; simpl; [reflexivity|].
  rewrite replace_pair_plain by exact H. exact IH.
Qed.

(** ** Lengths *)

Lemma replace_pair_length c r s :
  String.length (replace_pair c r s) <= String.length s.
Proof.
  induction s as [|a|a b t IHt IHbt] using string_ind2.
  - reflexivity.
  - reflexivity.
  - rewrite replace_pair_step.
    destruct (is_backslash a && Ascii.eqb b c);
      change (String.length (String a (String b t))) with (S (String.length (String b t)));
      change (String.length (String b t)) with (S (String.length t)) in *;
      cbn [String.length]; lia.
Qed.

Lemma fold_pairs_length l : forall s,
  String.length (fold_left (fun v p => replace_pair (fst p) (snd p) v) l s)
  <= String.length s.
Proof.
  induction l as [|[c r] l IH]; intros s; simpl; [lia|].
  specialize (IH (replace_pair c r s)). pose proof (replace_pair_length c r s). lia.
Qed.

(** ** Text in which no backslash follows a backslash *)

Lemma spaced_tail a s : spaced (String a s) = true -> spaced s = true.
Proof.
  destruct s as [|b t]; [reflexivity|]. rewrite spaced_step. intros H.
  apply andb_true_iff in H as [_ H]. exact H.
Qed.

Lemma unescape_by_head f a s :
  is_backslash a = false -> unescape_by f (String a s) = String a (unescape_by f s).
Proof.
  intros Ha. destruct s as [|b t]; [reflexivity|].
  rewrite unescape_by_step, Ha. reflexivity.
Qed.

Lemma replace_pair_head c r a s :
  is_backslash a = false -> replace_pair c r (String a s) = String a (replace_pair c r s).
Proof.
  intros Ha. destruct s as [|b t]; [reflexivity|].
  rewrite replace_pair_step, Ha. reflexivity.
Qed.

Lemma unescape_by_nothing s : unescape_by (fun _ => None) s = s.
Proof.
  induction s as [|a|a b t IHt IHbt] using string_ind2; try reflexivity.
  rewrite unescape_by_step, IHbt. destruct (is_backslash a); reflexivity.
Qed.

Lemma unescape_by_ext f g s : (forall b, f b = g b) -> unescape_by f s = unescape_by g s.
Proof.
  intros Hfg. induction s as [|a|a b t IHt IHbt] using string_ind2; try reflexivity.
  rewrite !unescape_by_step, Hfg, IHt, IHbt. reflexivity.
Qed.

Lemma spaced_cons a s :
  spaced s = true ->
  (forall b t, s = String b t -> is_backslash a && is_backslash b = false) ->
  spaced (String a s) = true.
Proof.
  intros Hs Hab. destruct s as [|b t]; [reflexivity|].
  rewrite spaced_step, (Hab b t eq_refl), Hs. reflexivity.
Qed.

Lemma spaced_replace_pair c r s :
  is_backslash r = false -> spaced s = true -> spaced (replace_pair c r s) = true.
Proof.
  intros Hr. induction s as [|a|a b t IHt IHbt] using string_ind2; intros Hs.
  - reflexivity.
  - reflexivity.
  - pose proof (spaced_tail _ _ Hs) as Hbt. pose proof (spaced_tail _ _ Hbt) as Ht.
    rewrite spaced_step in Hs. apply andb_true_iff in Hs as [Hab _].
    apply negb_true_iff in Hab.
    rewrite replace_pair_step.
    destruct (is_backslash a && Ascii.eqb b c) eqn:Hm.
    + apply spaced_cons; [auto|]. intros x y _. rewrite Hr. reflexivity.
    + apply spaced_cons; [auto|]. intros x y Hxy.
      destruct (is_backslash a) eqn:Ha; [|reflexivity].
      cbn [andb] in Hab, Hm. rewrite (replace_pair_head c r b t Hab) in Hxy.
      injection Hxy as <- _. rewrite Hab. reflexivity.
Qed.

(** One escape replaced first, the others at once afterwards: the same as
    all of them at once. *)
Lemma unescape_after_replace f c r s :
  is_backslash r = false -> spaced s = true ->
  unescape_by f (replace_pair c r s)
  = unescape_by (fun b => if Ascii.eqb b c then Some r else f b) s.
Proof.
  intros Hr. induction s as [|a|a b t IHt IHbt] using string_ind2; intros Hs.
  - reflexivity.
  - reflexivity.
  - pose proof (spaced_tail _ _ Hs) as Hbt. pose proof (spaced_tail _ _ Hbt) as Ht.
    rewrite spaced_step in Hs. apply andb_true_iff in Hs as [Hab _].
    apply negb_true_iff in Hab.
    rewrite replace_pair_step, (unescape_by_step _ a b t).
    destruct (is_backslash a) eqn:Ha.
    + cbn [andb] in Hab. cbn [andb].
      destruct (Ascii.eqb b c) eqn:Hbc.
      * rewrite (unescape_by_head f r _ Hr), IHt by exact Ht. reflexivity.
      * rewrite (replace_pair_head c r b t Hab), unescape_by_step, Ha.
        destruct (f b).
        -- rewrite IHt by exact Ht. reflexivity.
        -- rewrite <- (replace_pair_head c r b t Hab), IHbt by exact Hbt. reflexivity.
    + cbn [andb]. rewrite (unescape_by_head f a _ Ha), IHbt by exact Hbt. reflexivity.
Qed.

Lemma fold_pairs_unescape l :
  Forall (fun p => is_backslash (snd p) = false) l ->
  forall s, spaced s = true ->
    fold_left (fun v p => replace_pair (fst p) (snd p) v) l s
    = unescape_by (lookup_escape l) s.
Proof.
  induction 1 as [|[c r] l Hr Hl IH]; intros s Hs; simpl.
  - symmetry. apply unescape_by_nothing.
  - simpl in Hr. rewrite IH by (apply spaced_replace_pair; assumption).
    apply unescape_after_replace; assumption.
Qed.

Lemma lookup_escape_elem l b r :
  NoDup (map fst l) -> (b, r) ∈ l -> lookup_escape l b = Some r.
Proof.
  induction l as [|[c r'] l IH]; intros Hnd Hin.
  - apply elem_of_nil in Hin. destruct Hin.
  - simpl in Hnd. apply NoDup_cons in Hnd as [Hc Hnd].
    apply elem_of_cons in Hin as [Heq|Hin]; simpl.
    + injection Heq as -> ->. rewrite Ascii.eqb_refl. reflexivity.
    + destruct (Ascii.eqb_spec b c) as [->|Hne]; [|auto].
      exfalso. apply Hc. apply list_elem_of_fmap. exists (c, r). split; [reflexivity|exact Hin].
Qed.

Lemma lookup_escape_none l b :
  b ∉ map fst l -> lookup_escape l b = None.
Proof.
  induction l as [|[c r'] l IH]; intros Hb; simpl; [reflexivity|].
  simpl in Hb. rewrite not_elem_of_cons in Hb. destruct Hb as [Hne Hb].
  destruct (Ascii.eqb_spec b c) as [->|_]; [contradiction|auto].
Qed.

Lemma lookup_escape_some_elem l b r : lookup_escape l b = Some r -> (b, r) ∈ l.
Proof.
  induction l as [|[c r'] l IH]; simpl; [discriminate|].
  destruct (Ascii.eqb_spec b c) as [->|_].
  - intros [= ->]. left.
  - intros H. right. auto.
Qed.

Ltac not_among :=
  let H := fresh "H" in
  intros H;
  repeat (apply elem_of_cons in H as [H|H]; [discriminate H|]);
  apply elem_of_nil in H; exact H.

Lemma ESCAPES_keys_differ : NoDup (map fst ESCAPES).
Proof.
  vm_compute. repeat (apply NoDup_cons_2; [not_among|]). apply NoDup_nil_2.
Qed.

(** The table has one entry per escaped character, so the order of its
    items does not change what a character stands for. *)
Lemma lookup_escape_arranged l b :
  Permutation l ESCAPES -> lookup_escape l b = lookup_escape ESCAPES b.
Proof.
  intros Hp.
  assert (Hnd : NoDup (map fst l)) by (rewrite Hp; exact ESCAPES_keys_differ).
  destruct (lookup_escape ESCAPES b) as [r|] eqn:E.
  - apply lookup_escape_elem; [exact Hnd|]. rewrite Hp. apply lookup_escape_some_elem. exact E.
  - apply lookup_escape_none. rewrite Hp. intros Hin.
    apply list_elem_of_fmap in Hin as ([c r] & -> & Hin).
    change (fst (c, r)) with c in E.
    assert (NoDup (map fst ESCAPES)) as Hnd' by (rewrite <- Hp; exact Hnd).
    rewrite (lookup_escape_elem ESCAPES c r Hnd' Hin) in E. discriminate.
Qed.

Lemma lookup_escape_table b : lookup_escape ESCAPES b = escaped b.
Proof. destruct b as [[] [] [] [] [] [] [] []]; reflexivity. Qed.

Lemma escapes_are_no_backslash l :
  Permutation l ESCAPES -> Forall (fun p => is_backslash (snd p) = false) l.
Proof.
  intros Hp. rewrite Hp. repeat constructor.
Qed.

(** ** Properties of [norm_string] *)

(** X1: text without a backslash is left as it is by [norm_string], in
    whatever order the items of [REPLACEMENTS] are met, and so
    [unescape_string] keeps such a token verbatim. *)
Theorem norm_string_keeps_plain_text (items : list (string * string)) (s : string)
  (Hitems : Permutation items REPLACEMENTS)
  (Hplain : all_chars (fun a => negb (is_backslash a)) s = true) :
  norm_string_in items s = s /\ unescape_string s = VStr s.
Proof.
  assert (H : forall its, Permutation its REPLACEMENTS -> norm_string_in its s = s).
  { intros its Hp. destruct (items_pairs its Hp) as (l & -> & _).
    rewrite norm_string_in_pairs. apply fold_pairs_plain. exact Hplain. }
  split; [apply H; exact Hitems|].
  unfold unescape_string, norm_string. rewrite H by reflexivity. reflexivity.
Qed.

Lemma norm_string_plain_witness :
  norm_string_in (rev REPLACEMENTS) "akka.loglevel" = "akka.loglevel"
  /\ unescape_string "akka.loglevel" = VStr "akka.loglevel".
Proof.
  exact (norm_string_keeps_plain_text (rev REPLACEMENTS) "akka.loglevel"
           (Permutation_sym (Permutation_rev REPLACEMENTS)) eq_refl).
Defined.

(** X2: [norm_string] never makes a text longer: every item of the table puts
    one character in the place of two. *)
Theorem norm_string_never_longer (items : list (string * string)) (s : string)
  (Hitems : Permutation items REPLACEMENTS) :
  String.length (norm_string_in items s) <= String.length s.
Proof.
  destruct (items_pairs items Hitems) as (l & -> & _).
  rewrite norm_string_in_pairs. apply fold_pairs_length.
Qed.

Lemma norm_string_never_longer_witness :
  String.length (norm_string_in REPLACEMENTS (escape "n" ++ escape "t" ++ "x"))
  <= String.length (escape "n" ++ escape "t" ++ "x").
Proof.
  exact (norm_string_never_longer REPLACEMENTS (escape "n" ++ escape "t" ++ "x")
           (Permutation_refl REPLACEMENTS)).
Defined.

(** X3: in a text where no backslash follows a backslash, [norm_string]
    replaces every escape of the table, and nothing else, in one sweep from
    left to right; the result does not depend on the order in which the
    items of [REPLACEMENTS] are met. *)
Theorem norm_string_is_one_sweep (items : list (string * string)) (s : string)
  (Hitems : Permutation items REPLACEMENTS)
  (Hspaced : spaced s = true) :
  norm_string_in items s = unescape s /\ norm_string_in items s = norm_string s.
Proof.
  assert (H : forall its, Permutation its REPLACEMENTS -> norm_string_in its s = unescape s).
  { intros its Hp. destruct (items_pairs its Hp) as (l & -> & Hl).
    rewrite norm_string_in_pairs.
    rewrite fold_pairs_unescape by (try apply escapes_are_no_backslash; assumption).
    unfold unescape. apply unescape_by_ext. intros b.
    rewrite (lookup_escape_arranged l b Hl). apply lookup_escape_table. }
  split; [apply H; exact Hitems|].
  unfold norm_string. rewrite !H by (try reflexivity; exact Hitems). reflexivity.
Qed.

Lemma norm_string_one_sweep_witness :
  norm_string_in (rev REPLACEMENTS) ("a" ++ escape "n" ++ "b" ++ escape "=" ++ escape "x")
  = unescape ("a" ++ escape "n" ++ "b" ++ escape "=" ++ escape "x")
  /\ norm_string_in (rev REPLACEMENTS) ("a" ++ escape "n" ++ "b" ++ escape "=" ++ escape "x")
     = norm_string ("a" ++ escape "n" ++ "b" ++ escape "=" ++ escape "x").
Proof.
  exact (norm_string_is_one_sweep (rev REPLACEMENTS)
           ("a" ++ escape "n" ++ "b" ++ escape "=" ++ escape "x")
           (Permutation_sym (Permutation_rev REPLACEMENTS)) eq_refl).
Defined.

(** * Facts about the tokens of the grammar *)

Lemma matches_seq_inv r1 r2 s s2 :
  matches (Seq r1 r2) s s2 -> exists s1, matches r1 s s1 /\ matches r2 s1 s2.
Proof. intros M. inversion M; subst. eauto. Qed.

Lemma matches_chars_inv p s s' :
  matches (Chars p) s s' -> exists c, s = String c s' /\ p c = true.
Proof. intros M. inversion M; subst. eauto. Qed.

Lemma matches_alt_inv r1 r2 s s' :
  matches (Alt r1 r2) s s' -> matches r1 s s' \/ matches r2 s s'.
Proof. intros M. inversion M; subst; auto. Qed.


Lemma matches_ahead_inv r s s' :
  matches (Ahead r) s s' -> s' = s /\ exists u, matches r s u.
Proof. intros M. inversion M; subst. eauto. Qed.

Lemma matches_run g p s s' :
  matches (Star g (Chars p)) s s' -> exists pre, s = pre ++ s' /\ all_chars p pre = true.
Proof. intros M. apply (matches_consumes p _ _ _ M). simpl. auto. Qed.


Lemma matches_length r s s' : matches r s s' -> String.length s' <= String.length s.
Proof.
  induction 1; simpl in *; lia.
Qed.

Lemma matches_anything r : consumes_only (fun _ => true) r.
Proof. induction r; simpl; auto. Qed.

Lemma matches_text r s s' : matches r s s' -> exists text, s = text ++ s'.
Proof.
  intros M. destruct (matches_consumes _ _ _ _ M (matches_anything r)) as (pre & -> & _).
  eauto.
Qed.

Lemma is_dquote_eq c : is_dquote c = true -> c = dquote.
Proof. unfold is_dquote. apply Ascii.eqb_eq. Qed.

(** ** Multi-line strings *)

Lemma multiline_string_shape s rest :
  matches multiline_string s rest ->
  exists body, s = triple_quote ++ body ++ triple_quote ++ rest.
Proof.
  unfold multiline_string. intros M.
  apply matches_seq_inv in M as (s1 & M1 & M).
  apply matches_chars_inv in M1 as (c1 & -> & H1). apply is_dquote_eq in H1 as ->.
  apply matches_seq_inv in M as (s2 & M2 & M).
  apply matches_chars_inv in M2 as (c2 & -> & H2). apply is_dquote_eq in H2 as ->.
  apply matches_seq_inv in M as (s3 & M3 & M).
  apply matches_chars_inv in M3 as (c3 & -> & H3). apply is_dquote_eq in H3 as ->.
  apply matches_seq_inv in M as (s4 & Mbody & M).
  apply matches_run in Mbody as (body & -> & _).
  apply matches_seq_inv in M as (s5 & M5 & M).
  apply matches_chars_inv in M5 as (c5 & -> & H5). apply is_dquote_eq in H5 as ->.
  apply matches_seq_inv in M as (s6 & M6 & M).
  apply matches_chars_inv in M6 as (c6 & -> & H6). apply is_dquote_eq in H6 as ->.
  apply matches_chars_inv in M as (c7 & -> & H7). apply is_dquote_eq in H7 as ->.
  exists body. reflexivity.
Qed.

Lemma slice_3_3_unwraps body : slice_3_3 (triple_quote ++ body ++ triple_quote) = body.
Proof.
  unfold slice_3_3.
  replace (String.length (triple_quote ++ body ++ triple_quote) - 6)
    with (String.length body).
  - change (drop_prefix 3 (triple_quote ++ body ++ triple_quote))
      with (body ++ triple_quote).
    apply take_prefix_app.
  - rewrite !length_app_string. simpl. lia.
Qed.

(** ** Substitutions *)





(** ** Unquoted strings *)

Lemma string_delimiter_is_not_blank c : is_string_delimiter c = true -> is_blank c = false.
Proof. by_cases_on_char c. Qed.

Lemma blanks_then_string_delimiter g s u :
  matches (Star g (Chars is_blank)) s u ->
  at_string_delimiter u = true -> at_string_delimiter s = true.
Proof.
  intros M. apply matches_run in M as (pre & -> & Hpre). intros Hu.
  induction pre as [|c pre IH]; simpl in *; [exact Hu|].
  apply andb_true_iff in Hpre as [-> Hpre]. auto.
Qed.

Lemma unquoted_lookahead s u :
  matches (Alt (Chars (char_in "$"))
               (Seq (Star true (Chars is_blank))
                    (Alt (Seq (Chars is_slash) (Chars is_slash))
                         (Chars is_string_delimiter)))) s u ->
  at_dollar s || at_string_delimiter s = true.
Proof.
  intros M. apply matches_alt_inv in M as [M|M].
  - apply matches_chars_inv in M as (c & -> & Hc). simpl.
    replace (Ascii.eqb c "$") with true; [reflexivity|].
    symmetry. revert Hc. by_cases_on_char c.
  - apply orb_true_iff. right.
    apply matches_seq_inv in M as (s1 & Mb & M).
    apply (blanks_then_string_delimiter _ _ _ Mb).
    apply matches_alt_inv in M as [M|M].
    + apply matches_seq_inv in M as (s2 & M1 & M2).
      apply matches_chars_inv in M1 as (c1 & -> & H1).
      apply matches_chars_inv in M2 as (c2 & -> & H2).
      simpl. rewrite (slash_is_not_blank c1 H1), H1, H2. apply orb_true_r.
    + apply matches_chars_inv in M as (c & -> & Hc).
      simpl. rewrite (string_delimiter_is_not_blank c Hc), Hc. reflexivity.
Qed.

Lemma unquoted_consumes :
  consumes_only (fun c => negb (is_structural c))
    (Plus false
       (Alt (Seq (Chars (Ascii.eqb backslash))
                 (Seq (Star true (Chars is_blank))
                      (Chars (fun c => Ascii.eqb c cr || Ascii.eqb c newline))))
            (Chars is_unquoted_char))).
Proof.
  unfold Plus. simpl. repeat split; intros c; by_cases_on_char c.
Qed.

Lemma unquoted_turn_consumes s s' :
  matches (Alt (Seq (Chars (Ascii.eqb backslash))
                    (Seq (Star true (Chars is_blank))
                         (Chars (fun c => Ascii.eqb c cr || Ascii.eqb c newline))))
               (Chars is_unquoted_char)) s s' ->
  String.length s' < String.length s.
Proof.
  intros M. apply matches_alt_inv in M as [M|M].
  - apply matches_seq_inv in M as (s1 & M1 & M).
    apply matches_chars_inv in M1 as (c & -> & _).
    apply matches_length in M. simpl. lia.
  - apply matches_chars_inv in M as (c & -> & _). simpl. lia.
Qed.

Lemma unquoted_string_shape s rest :
  matches unquoted_string s rest ->
  exists text,
    s = text ++ rest /\ text <> ""
    /\ all_chars (fun c => negb (is_structural c)) text = true
    /\ at_dollar rest || at_string_delimiter rest = true.
Proof.
  unfold unquoted_string. intros M.
  apply matches_seq_inv in M as (s1 & Mtext & Mla).
  apply matches_ahead_inv in Mla as (-> & u & Mla).
  apply unquoted_lookahead in Mla.
  destruct (matches_consumes _ _ _ _ Mtext unquoted_consumes) as (text & Hs & Hchars).
  exists text. split; [exact Hs|]. split; [|split; assumption].
  intros ->. simpl in Hs. subst s1.
  unfold Plus in Mtext. apply matches_seq_inv in Mtext as (s2 & M1 & M2).
  apply unquoted_turn_consumes in M1. apply matches_length in M2. lia.
Qed.

(** ** Numbers *)


















Lemma at_delimiter_not_empty rest :
  at_dollar rest || at_string_delimiter rest = true -> rest <> "".
Proof. intros H ->. discriminate. Qed.

(** ** A lazy repetition stops at the first place where the rest matches *)

Lemma bt_seq r1 r2 s k : bt (Seq r1 r2) s k = bt r1 s (fun s' => bt r2 s' k).
Proof. reflexivity. Qed.

Lemma bt_chars p s k :
  bt (Chars p) s k
  = match s with
    | String c rest => if p c then k rest else None
    | EmptyString => None
    end.
Proof. reflexivity. Qed.

Lemma bt_ahead r s k :
  bt (Ahead r) s k = match bt r s Some with Some _ => k s | None => None end.
Proof. reflexivity. Qed.

Lemma bt_star g r s k : bt (Star g r) s k = turns (bt r) g k (String.length s) s.
Proof. reflexivity. Qed.

Lemma lazy_run_stops_first p k : forall n s x,
  turns (bt (Chars p)) false k n s = Some x ->
  exists pre s',
    s = pre ++ s' /\ k s' = Some x
    /\ forall b1 b2, pre = b1 ++ b2 -> b2 <> "" -> k (b2 ++ s') = None.
Proof.
  induction n as [|n IH]; intros s x H.
  - exists "", s. split; [reflexivity|]. split; [exact H|].
    intros b1 b2 Hs Hne. destruct b1; destruct b2; try discriminate. contradiction.
  - change (turns (bt (Chars p)) false k (S n) s)
      with (or_else (k s) (bt (Chars p) s (turns (bt (Chars p)) false k n))) in H.
    unfold or_else in H. destruct (k s) as [y|] eqn:Ek.
    + exists "", s. split; [reflexivity|]. split; [congruence|].
      intros b1 b2 Hs Hne. destruct b1; destruct b2; try discriminate. contradiction.
    + rewrite bt_chars in H. destruct s as [|c rest]; [discriminate|].
      destruct (p c); [|discriminate].
      apply IH in H as (pre & s' & -> & Hk & Hfirst).
      exists (String c pre), s'. split; [reflexivity|]. split; [exact Hk|].
      intros b1 b2 Hs Hne. destruct b1 as [|c' b1].
      * simpl in Hs. subst b2. exact Ek.
      * injection Hs as _ Hs. eapply Hfirst; eassumption.
Qed.

Lemma closing_quotes s x :
  bt (Seq (Chars is_dquote) (Seq (Chars is_dquote) (Chars is_dquote))) s Some = Some x
  <-> s = triple_quote ++ x.
Proof.
  split.
  - intros H. apply bt_sound in H as (s' & M & Hs). injection Hs as ->.
    apply matches_seq_inv in M as (s1 & M1 & M).
    apply matches_chars_inv in M1 as (c1 & -> & H1). apply is_dquote_eq in H1 as ->.
    apply matches_seq_inv in M as (s2 & M2 & M).
    apply matches_chars_inv in M2 as (c2 & -> & H2). apply is_dquote_eq in H2 as ->.
    apply matches_chars_inv in M as (c3 & -> & H3). apply is_dquote_eq in H3 as ->.
    reflexivity.
  - intros ->. reflexivity.
Qed.

Lemma lazy_turns_path r k : forall n s x,
  turns (bt r) false k n s = Some x ->
  exists pre s', s = pre ++ s' /\ lazy_path r k pre s' /\ k s' = Some x.
Proof.
  induction n as [|n IH]; intros s x H.
  - exists "", s. split; [reflexivity|]. split; [apply lazy_path_stop|exact H].
  - change (turns (bt r) false k (S n) s)
      with (or_else (k s) (bt r s (turns (bt r) false k n))) in H.
    unfold or_else in H. destruct (k s) as [y|] eqn:Ek.
    + exists "", s. split; [reflexivity|]. split; [apply lazy_path_stop|congruence].
    + apply bt_sound in H as (s1 & M & H).
      apply IH in H as (pre & s' & -> & Hpath & Hk).
      destruct (matches_text _ _ _ M) as (t & ->).
      exists (t ++ pre), s'. split; [symmetry; apply string_app_assoc|].
      split; [|exact Hk]. apply lazy_path_turn; assumption.
Qed.

Lemma all_chars_app_inv p s t :
  all_chars p (s ++ t) = true -> all_chars p s = true /\ all_chars p t = true.
Proof.
  induction s as [|c s IH]; simpl; [auto|].
  intros H. apply andb_true_iff in H as [Hc H]. rewrite Hc. simpl. auto.
Qed.

Lemma same_length_prefix t u : String.length (t ++ u) <= String.length u -> t = "".
Proof.
  rewrite length_app_string. destruct t; [reflexivity|]. simpl. lia.
Qed.

(** A turn of [unquoted_string] over text without backslash takes one
    character. *)
Lemma unquoted_turn_single t u :
  matches unquoted_turn (t ++ u) u ->
  all_chars (fun c => negb (is_backslash c)) t = true ->
  exists c, t = String c "".
Proof.
  intros M Hplain.
  pose proof (unquoted_turn_consumes _ _ M) as Hlen.
  destruct t as [|c t]; [simpl in Hlen; lia|].
  exists c. f_equal.
  simpl in Hplain. apply andb_true_iff in Hplain as [Hc _].
  unfold unquoted_turn in M. apply matches_alt_inv in M as [M|M].
  - apply matches_seq_inv in M as (s1 & M1 & _).
    apply matches_chars_inv in M1 as (c' & Heq & Hc').
    simpl in Heq. injection Heq as -> _.
    apply Ascii.eqb_eq in Hc' as <-. discriminate.
  - apply matches_chars_inv in M as (c' & Heq & _).
    simpl in Heq. injection Heq as _ Heq.
    apply (same_length_prefix t u). rewrite Heq. lia.
Qed.

Lemma lazy_path_first k pre s' :
  lazy_path unquoted_turn k pre s' ->
  all_chars (fun c => negb (is_backslash c)) pre = true ->
  forall b1 b2, pre = b1 ++ b2 -> b2 <> "" -> k (b2 ++ s') = None.
Proof.
  induction 1 as [s'|t pre s' Hk M _ IH]; intros Hplain b1 b2 Hsplit Hne.
  - destruct b1; destruct b2; try discriminate. contradiction.
  - apply all_chars_app_inv in Hplain as [Ht Hpre].
    destruct (unquoted_turn_single t (pre ++ s') M Ht) as (c & ->).
    destruct b1 as [|c' b1].
    + simpl in Hsplit. subst b2. exact Hk.
    + simpl in Hsplit. injection Hsplit as _ Hsplit.
      eapply IH; eassumption.
Qed.

(** The lookahead of [unquoted_string] finds whatever is there. *)
Lemma blanks_reach_delimiter s : forall n,
  String.length s <= n -> at_string_delimiter s = true ->
  exists u,
    turns (bt (Chars is_blank)) true
      (fun s' => bt (Alt (Seq (Chars is_slash) (Chars is_slash))
                         (Chars is_string_delimiter)) s' Some) n s = Some u.
Proof.
  induction s as [|c rest IH]; intros n Hn Hat; [discriminate|].
  destruct n as [|n]; [simpl in Hn; lia|].
  set (kD := fun s' => bt (Alt (Seq (Chars is_slash) (Chars is_slash))
                               (Chars is_string_delimiter)) s' Some) in *.
  change (turns (bt (Chars is_blank)) true kD (S n) (String c rest))
    with (or_else (bt (Chars is_blank) (String c rest)
                     (turns (bt (Chars is_blank)) true kD n))
            (kD (String c rest))).
  rewrite bt_chars. simpl in Hat. destruct (is_blank c) eqn:Hb.
  - destruct (IH n ltac:(simpl in Hn; lia) Hat) as (u & ->). simpl. eauto.
  - unfold or_else, kD. simpl.
    destruct (is_string_delimiter c); simpl in *.
    + destruct (is_slash c); [|eauto].
      destruct rest as [|c' rest']; [eauto|]. destruct (is_slash c'); eauto.
    + destruct (is_slash c); [|discriminate].
      destruct rest as [|c' rest']; [discriminate|].
      simpl in Hat. rewrite Hat. eauto.
Qed.

Lemma unquoted_end_complete s :
  at_dollar s || at_string_delimiter s = true ->
  exists u, bt unquoted_end s Some = Some u.
Proof.
  intros H. unfold unquoted_end.
  change (bt (Alt (Chars (char_in "$"))
                  (Seq (Star true (Chars is_blank))
                       (Alt (Seq (Chars is_slash) (Chars is_slash))
                            (Chars is_string_delimiter)))) s Some)
    with (or_else (bt (Chars (char_in "$")) s Some)
            (turns (bt (Chars is_blank)) true
               (fun s' => bt (Alt (Seq (Chars is_slash) (Chars is_slash))
                                  (Chars is_string_delimiter)) s' Some)
               (String.length s) s)).
  unfold or_else. destruct (bt (Chars (char_in "$")) s Some) as [u|] eqn:E; [eauto|].
  apply orb_true_iff in H as [H|H].
  - destruct s as [|c rest]; [discriminate|]. simpl in H, E.
    apply Ascii.eqb_eq in H as ->. discriminate.
  - apply blanks_reach_delimiter; [lia|exact H].
Qed.

Lemma unquoted_string_path s rest :
  re_match unquoted_string s = Some rest ->
  exists t pre,
    s = t ++ pre ++ rest
    /\ matches unquoted_turn (t ++ pre ++ rest) (pre ++ rest)
    /\ lazy_path unquoted_turn
         (fun s' => bt (Ahead unquoted_end) s' Some) pre rest.
Proof.
  intros H. unfold re_match in H.
  change (bt unquoted_string s Some)
    with (bt unquoted_turn s
            (fun s1 => turns (bt unquoted_turn) false
                         (fun s' => bt (Ahead unquoted_end) s' Some)
                         (String.length s1) s1)) in H.
  apply bt_sound in H as (s1 & M & H).
  apply lazy_turns_path in H as (pre & s' & -> & Hpath & Hk).
  assert (s' = rest) as ->.
  { cbv beta in Hk. rewrite bt_ahead in Hk.
    destruct (bt unquoted_end s' Some); [|discriminate]. congruence. }
  destruct (matches_text _ _ _ M) as (t & ->).
  exists t, pre. auto.
Qed.

(** ** A greedy repetition at the end of an expression takes all it can *)




(** * The tokens and their parse actions *)

(** X4: whatever [multiline_string] (line 154) matches is three quotes, a body
    and three quotes, and [unescape_multi_string] (lines 93-95) gives the
    body with its escapes replaced: the slice removes exactly the
    quotes. *)
Theorem multiline_string_is_unwrapped (s rest : string)
  (Hmatch : re_match multiline_string s = Some rest) :
  exists body,
    s = triple_quote ++ body ++ triple_quote ++ rest
    /\ matched_text s rest = triple_quote ++ body ++ triple_quote
    /\ unescape_multi_string (matched_text s rest) = norm_string body.
Proof.
  apply re_match_sound in Hmatch.
  apply multiline_string_shape in Hmatch as (body & ->).
  exists body. split; [reflexivity|].
  assert (Htext : matched_text (triple_quote ++ body ++ triple_quote ++ rest) rest
                  = triple_quote ++ body ++ triple_quote).
  { replace (triple_quote ++ body ++ triple_quote ++ rest)
      with ((triple_quote ++ body ++ triple_quote) ++ rest)
      by (rewrite !string_app_assoc; reflexivity).
    apply matched_text_app. }
  split; [exact Htext|].
  rewrite Htext. unfold unescape_multi_string. rewrite slice_3_3_unwraps. reflexivity.
Qed.

Lemma multiline_string_witness :
  re_match multiline_string (triple_quote ++ "a = b" ++ triple_quote ++ ", c")
  = Some ", c"
  /\ exists body,
       triple_quote ++ "a = b" ++ triple_quote ++ ", c"
       = triple_quote ++ body ++ triple_quote ++ ", c"
       /\ matched_text (triple_quote ++ "a = b" ++ triple_quote ++ ", c") ", c"
          = triple_quote ++ body ++ triple_quote
       /\ unescape_multi_string
            (matched_text (triple_quote ++ "a = b" ++ triple_quote ++ ", c") ", c")
          = norm_string body.
Proof.
  exact (conj eq_refl
           (multiline_string_is_unwrapped
              (triple_quote ++ "a = b" ++ triple_quote ++ ", c") ", c" eq_refl)).
Defined.



(** X7: whatever [unquoted_string] (line 162) matches is not empty, holds none
    of the characters [[{]}#,=$], and is followed by a dollar or by blanks
    and then two slashes or one of [}],#], a newline or a carriage return:
    an unquoted string never reaches the end of the input. *)
Theorem unquoted_string_stops_at_delimiter (s rest : string)
  (Hmatch : re_match unquoted_string s = Some rest) :
  exists text,
    s = text ++ rest
    /\ matched_text s rest = text
    /\ String.eqb text "" = false
    /\ all_chars (fun c => negb (is_structural c)) text = true
    /\ at_dollar rest || at_string_delimiter rest = true
    /\ String.eqb rest "" = false.
Proof.
  apply re_match_sound in Hmatch.
  apply unquoted_string_shape in Hmatch as (text & -> & Hne & Hchars & Hrest).
  exists text. split; [reflexivity|]. split; [apply matched_text_app|].
  split; [apply String.eqb_neq; exact Hne|]. split; [exact Hchars|].
  split; [exact Hrest|]. apply String.eqb_neq. apply at_delimiter_not_empty. exact Hrest.
Qed.

Lemma unquoted_string_witness :
  re_match unquoted_string "ab c  // d" = Some "  // d"
  /\ exists text,
       "ab c  // d" = text ++ "  // d"
       /\ matched_text "ab c  // d" "  // d" = text
       /\ String.eqb text "" = false
       /\ all_chars (fun c => negb (is_structural c)) text = true
       /\ at_dollar "  // d" || at_string_delimiter "  // d" = true
       /\ String.eqb "  // d" "" = false.
Proof.
  exact (conj eq_refl
           (unquoted_string_stops_at_delimiter "ab c  // d" "  // d" eq_refl)).
Defined.



(** X5: the repetition of [multiline_string] (line 154) is lazy: the string
    ends at the first three quotes in a row after the opening ones, so its
    body holds no three quotes, cannot end with a quote that belongs to
    it, and a fourth quote stays outside. *)
Theorem multiline_string_ends_at_first_quotes (s rest : string)
  (Hmatch : re_match multiline_string s = Some rest) :
  exists body,
    s = triple_quote ++ body ++ triple_quote ++ rest
    /\ forall b1 b2 u,
         body = b1 ++ b2 -> b2 <> "" ->
         b2 ++ triple_quote ++ rest <> triple_quote ++ u.
Proof.
  unfold re_match, multiline_string in Hmatch.
  rewrite bt_seq, bt_chars in Hmatch. destruct s as [|c1 s]; [discriminate|].
  destruct (is_dquote c1) eqn:H1; [|discriminate]. apply is_dquote_eq in H1 as ->.
  rewrite bt_seq, bt_chars in Hmatch. destruct s as [|c2 s]; [discriminate|].
  destruct (is_dquote c2) eqn:H2; [|discriminate]. apply is_dquote_eq in H2 as ->.
  rewrite bt_seq, bt_chars in Hmatch. destruct s as [|c3 s]; [discriminate|].
  destruct (is_dquote c3) eqn:H3; [|discriminate]. apply is_dquote_eq in H3 as ->.
  rewrite bt_seq, bt_star in Hmatch.
  apply lazy_run_stops_first in Hmatch as (body & s' & -> & Hclose & Hfirst).
  apply closing_quotes in Hclose as ->.
  exists body. split; [reflexivity|].
  intros b1 b2 u Hsplit Hne Heq.
  specialize (Hfirst b1 b2 Hsplit Hne). rewrite Heq in Hfirst.
  assert (Hsome : bt (Seq (Chars is_dquote) (Seq (Chars is_dquote) (Chars is_dquote)))
                    (triple_quote ++ u) Some = Some u)
    by (apply closing_quotes; reflexivity).
  congruence.
Qed.

Lemma multiline_string_first_quotes_witness :
  re_match multiline_string (triple_quote ++ "a" ++ triple_quote ++ quote ++ " b")
  = Some (quote ++ " b")
  /\ exists body,
       triple_quote ++ "a" ++ triple_quote ++ quote ++ " b"
       = triple_quote ++ body ++ triple_quote ++ quote ++ " b"
       /\ forall b1 b2 u,
            body = b1 ++ b2 -> b2 <> "" ->
            b2 ++ triple_quote ++ quote ++ " b" <> triple_quote ++ u.
Proof.
  exact (conj eq_refl
           (multiline_string_ends_at_first_quotes
              (triple_quote ++ "a" ++ triple_quote ++ quote ++ " b") (quote ++ " b")
              eq_refl)).
Defined.

(** X8: the repetition of [unquoted_string] (line 162) is lazy: a text without
    backslash ends at the first place, after its first character, where a
    dollar or blanks and then two slashes or a delimiter follow.  So the
    blanks before a comment or a delimiter are no part of the string, and
    those before a substitution are. *)
Theorem unquoted_string_ends_at_first_delimiter (s rest : string)
  (Hmatch : re_match unquoted_string s = Some rest) :
  exists text,
    s = text ++ rest
    /\ (all_chars (fun c => negb (is_backslash c)) text = true ->
        forall b1 b2,
          text = b1 ++ b2 -> b1 <> "" -> b2 <> "" ->
          at_dollar (b2 ++ rest) || at_string_delimiter (b2 ++ rest) = false).
Proof.
  apply unquoted_string_path in Hmatch as (t & pre & -> & M & Hpath).
  exists (t ++ pre). split; [symmetry; apply string_app_assoc|].
  intros Hplain b1 b2 Hsplit Hb1 Hb2.
  apply all_chars_app_inv in Hplain as [Ht Hpre].
  destruct (unquoted_turn_single t (pre ++ rest) M Ht) as (c & ->).
  destruct b1 as [|c' b1]; [contradiction|].
  simpl in Hsplit. injection Hsplit as _ Hsplit.
  pose proof (lazy_path_first _ _ _ Hpath Hpre b1 b2 Hsplit Hb2) as Hk.
  destruct (at_dollar (b2 ++ rest) || at_string_delimiter (b2 ++ rest)) eqn:E;
    [|reflexivity].
  apply unquoted_end_complete in E as (u & E).
  cbv beta in Hk. rewrite bt_ahead, E in Hk. discriminate.
Qed.

Lemma unquoted_string_first_delimiter_witness :
  re_match unquoted_string "ab  # c" = Some "  # c"
  /\ exists text,
       "ab  # c" = text ++ "  # c"
       /\ (all_chars (fun c => negb (is_backslash c)) text = true ->
           forall b1 b2,
             text = b1 ++ b2 -> b1 <> "" -> b2 <> "" ->
             at_dollar (b2 ++ "  # c") || at_string_delimiter (b2 ++ "  # c") = false).
Proof.
  exact (conj eq_refl
           (unquoted_string_ends_at_first_delimiter "ab  # c" "  # c" eq_refl)).
Defined.

(** * What the tree operations, the parser and the resolver leave alone *)

Section Frames.

Variable R : store -> store -> Prop.
Hypothesis R_refl : forall st, R st st.
Hypothesis R_trans : forall st1 st2 st3, R st1 st2 -> R st2 st3 -> R st1 st3.
Hypothesis R_trees : forall st T,
  length (trees st) <= length T -> R st (mkStore T (pendings st) (substs st)).

Lemma keeps_ret {A} (a : A) : keeps R (ret a).
Proof. intros st a' st' H. injection H as _ <-. apply R_refl. Qed.

Lemma keeps_raise {A} (e : exn) : keeps R (@raise A e).
Proof. intros st a st' H. discriminate. Qed.

Lemma keeps_get_store : keeps R get_store.
Proof. intros st a st' H. injection H as _ <-. apply R_refl. Qed.

Lemma keeps_bind {A B} (m : M A) (k : A -> M B) :
  keeps R m -> (forall a, keeps R (k a)) -> keeps R (bind m k).
Proof.
  intros Hm Hk st b st' H. unfold bind in H.
  destruct (m st) as [[a st1]|e] eqn:E; [|discriminate].
  eapply R_trans; [eapply Hm; exact E|eapply Hk; exact H].
Qed.

Lemma keeps_read_tree t : keeps R (read_tree t).
Proof.
  intros st a st' H. unfold read_tree in H.
  destruct (trees st !! t); [|discriminate]. injection H as _ <-. apply R_refl.
Qed.

Lemma keeps_read_values c : keeps R (read_values c).
Proof.
  intros st a st' H. unfold read_values in H.
  destruct (pendings st !! c); [|discriminate]. injection H as _ <-. apply R_refl.
Qed.

Lemma keeps_read_subst s : keeps R (read_subst s).
Proof.
  intros st a st' H. unfold read_subst in H.
  destruct (substs st !! s); [|discriminate]. injection H as _ <-. apply R_refl.
Qed.

Lemma keeps_new_tree : keeps R new_tree.
Proof.
  intros st a st' H. injection H as _ <-. apply R_trees.
  rewrite length_app. lia.
Qed.

Lemma keeps_tree_setitem t key v : keeps R (tree_setitem t key v).
Proof.
  intros st a st' H. unfold tree_setitem in H.
  destruct (trees st !! t); [|discriminate]. injection H as _ <-. apply R_trees.
  rewrite length_insert. lia.
Qed.

Lemma keeps_merge_config_tree fuel : forall a b, keeps R (merge_config_tree fuel a b).
Proof.
  induction fuel as [|fuel IH]; intros a b; simpl.
  - apply keeps_raise.
  - apply keeps_bind; [apply keeps_read_tree|]. intros entries.
    induction entries as [|[k v] rest IHrest].
    + apply keeps_ret.
    + apply keeps_bind; [apply keeps_read_tree|]. intros existing.
      apply keeps_bind; [|intros _; exact IHrest].
      destruct (assoc k existing) as [[]|]; try apply keeps_tree_setitem.
      destruct v; try apply keeps_tree_setitem. apply IH.
Qed.

Lemma keeps_merge_into a b :
  keeps R (do st <- get_store; merge_config_tree (S (length (trees st))) a b).
Proof.
  apply keeps_bind; [apply keeps_get_store|]. intros st. apply keeps_merge_config_tree.
Qed.

Lemma keeps_tree_put_path path v append : forall t, keeps R (tree_put_path path v append t).
Proof.
  induction path as [|k rest IH]; intros t.
  - apply keeps_ret.
  - destruct rest as [|k' rest].
    + simpl. apply keeps_bind; [apply keeps_read_tree|]. intros existing.
      destruct (assoc k existing) as [[]|]; try apply keeps_tree_setitem.
      * destruct v; try apply keeps_tree_setitem.
        destruct append; apply keeps_tree_setitem.
      * destruct v; try apply keeps_tree_setitem. apply keeps_merge_into.
    + change (tree_put_path (k :: k' :: rest) v append t)
        with (do existing <- read_tree t;
              match assoc k existing with
              | Some (VTree t') => tree_put_path (k' :: rest) v append t'
              | _ => do t' <- new_tree;
                     tree_setitem t k (VTree t') ;; tree_put_path (k' :: rest) v append t'
              end).
      apply keeps_bind; [apply keeps_read_tree|]. intros existing.
      assert (Hnew : keeps R (do t' <- new_tree;
                              tree_setitem t k (VTree t') ;;
                              tree_put_path (k' :: rest) v append t')).
      { apply keeps_bind; [apply keeps_new_tree|]. intros t'.
        apply keeps_bind; [apply keeps_tree_setitem|]. intros _. apply IH. }
      destruct (assoc k existing) as [[]|]; try exact Hnew. apply IH.
Qed.

Lemma keeps_tree_put t key v append : keeps R (tree_put t key v append).
Proof. apply keeps_tree_put_path. Qed.

Lemma keeps_merge_all into toks : keeps R (merge_all into toks).
Proof.
  induction toks as [|v rest IH]; simpl.
  - apply keeps_ret.
  - destruct v; try exact IH.
    apply keeps_bind; [apply keeps_merge_into|]. intros _. exact IH.
Qed.

Lemma keeps_first_or_self tr : keeps R (first_or_self tr).
Proof.
  destruct tr as [v|[|v l]]; simpl;
    [apply keeps_ret|apply keeps_raise|apply keeps_ret].
Qed.

Lemma keeps_transform c : keeps R (transform c).
Proof.
  unfold transform. apply keeps_bind; [apply keeps_read_values|]. intros cv.
  cbv zeta. destruct (existsb is_subst (tokens cv)); [apply keeps_ret|].
  destruct (tokens cv) as [|v [|v' rest]]; try apply keeps_ret.
  destruct (forallb is_scalar (v :: v' :: rest)); [apply keeps_ret|].
  destruct (forallb is_list (v :: v' :: rest)); [apply keeps_ret|].
  destruct (forallb is_tree (v :: v' :: rest)); [|apply keeps_raise].
  apply keeps_bind; [apply keeps_new_tree|]. intros t.
  apply keeps_bind; [apply keeps_merge_all|]. intros _. apply keeps_ret.
Qed.

Lemma keeps_put_each t key values append : keeps R (put_each t key values append).
Proof.
  induction values as [|v rest IH]; simpl; [apply keeps_ret|].
  apply keeps_bind; [apply keeps_tree_put|]. intros _. exact IH.
Qed.

End Frames.

(** ** The resolver *)

Lemma resolver_frame_refl st : resolver_frame st st.
Proof. unfold resolver_frame. auto. Qed.

Lemma resolver_frame_trans st1 st2 st3 :
  resolver_frame st1 st2 -> resolver_frame st2 st3 -> resolver_frame st1 st3.
Proof.
  intros (H1 & H2 & H3) (K1 & K2 & K3). unfold resolver_frame.
  split; [congruence|]. split; [congruence|lia].
Qed.

Lemma resolver_frame_trees st T :
  length (trees st) <= length T -> resolver_frame st (mkStore T (pendings st) (substs st)).
Proof. intros H. unfold resolver_frame. simpl. auto. Qed.

Lemma insert_same_field {A B} (f : A -> B) (l : list A) (c : nat) (x y : A) :
  l !! c = Some x -> f y = f x -> f <$> <[c := y]> l = f <$> l.
Proof.
  intros Hl Hf. rewrite list_fmap_insert, Hf. apply list_insert_id.
  rewrite list_lookup_fmap, Hl. reflexivity.
Qed.

Lemma values_put_frame c i v : keeps resolver_frame (values_put c i v).
Proof.
  intros st a st' H. unfold values_put, bind, read_values in H.
  destruct (pendings st !! c) as [cv|] eqn:E; [|discriminate].
  destruct (decide (i < length (tokens cv))); [|discriminate].
  injection H as _ <-. unfold resolver_frame. simpl.
  split; [reflexivity|]. split; [|lia].
  apply (insert_same_field owner _ _ cv); [exact E|reflexivity].
Qed.

Section ResolverFrame.

Variable environ : string -> option string.
Variable order : nat -> list nat -> list nat.

Lemma resolver_bind {A B} (m : M A) (k : A -> M B) :
  keeps resolver_frame m -> (forall a, keeps resolver_frame (k a)) ->
  keeps resolver_frame (bind m k).
Proof. apply keeps_bind, resolver_frame_trans. Qed.

Lemma resolver_ret {A} (a : A) : keeps resolver_frame (ret a).
Proof. apply keeps_ret, resolver_frame_refl. Qed.

Lemma replace_token_frame sub v : keeps resolver_frame (replace_token sub v).
Proof.
  unfold replace_token.
  destruct (parent sub) as [c|]; [|apply keeps_raise].
  destruct (index sub) as [i|]; [|apply keeps_raise].
  apply resolver_bind; [apply keeps_read_values, resolver_frame_refl|]. intros cv.
  apply resolver_bind; [apply values_put_frame|]. intros _.
  apply resolver_bind;
    [apply keeps_transform;
     [apply resolver_frame_refl|apply resolver_frame_trans|apply resolver_frame_trees]|].
  intros tr.
  apply resolver_bind; [apply keeps_first_or_self, resolver_frame_refl|]. intros result.
  apply resolver_bind; [apply keeps_read_values, resolver_frame_refl|]. intros cv'.
  destruct (owner cv') as [[t key]|]; [|apply keeps_raise].
  apply keeps_tree_setitem, resolver_frame_trees.
Qed.

Lemma resolve_one_frame config s : keeps resolver_frame (resolve_one environ config s).
Proof.
  unfold resolve_one.
  apply resolver_bind; [apply keeps_read_subst, resolver_frame_refl|]. intros sub.
  apply resolver_bind; [apply keeps_get_store, resolver_frame_refl|]. intros st.
  destruct (_resolve_variable environ st config sub) as [v|e]; [|apply keeps_raise].
  destruct v; try apply resolver_ret;
    (apply resolver_bind; [apply replace_token_frame|intros _; apply resolver_ret]).
Qed.

Lemma visit_all_frame config todo :
  forall working unresolved,
    keeps resolver_frame (visit_all environ config todo working unresolved).
Proof.
  induction todo as [|s rest IH]; intros working unresolved; simpl.
  - apply resolver_ret.
  - apply resolver_bind; [apply resolve_one_frame|]. intros [|]; apply IH.
Qed.

Lemma passes_frame config n :
  forall i working st,
    match passes environ order config n i working st with
    | Broke _ _ st' | Exhausted _ st' => resolver_frame st st'
    | RaisedInPass _ _ => True
    end.
Proof.
  induction n as [|n IH]; intros i working st; simpl.
  - apply resolver_frame_refl.
  - destruct (visit_all environ config (order i working) working false st)
      as [[[working' unresolved] st']|e] eqn:Hv; [|exact I].
    apply visit_all_frame in Hv.
    destruct unresolved; [|exact Hv].
    specialize (IH (S i) working' st').
    destruct (passes environ order config n (S i) working' st'); try exact I;
      eapply resolver_frame_trans; eassumption.
Qed.

End ResolverFrame.

(** ** The environment *)

Lemma agree_frame env1 env2 st st' :
  resolver_frame st st' -> agree env1 env2 st -> agree env1 env2 st'.
Proof. intros (H & _) Ha. unfold agree in *. rewrite H. exact Ha. Qed.

Lemma resolve_one_agree env1 env2 config s st :
  agree env1 env2 st ->
  resolve_one env1 config s st = resolve_one env2 config s st.
Proof.
  intros Ha. unfold resolve_one, bind, read_subst, get_store.
  destruct (substs st !! s) as [sub|] eqn:E; [|reflexivity].
  unfold _resolve_variable.
  rewrite (Forall_lookup_1 _ _ _ _ Ha E). reflexivity.
Qed.

Lemma visit_all_agree env1 env2 config todo :
  forall working unresolved st,
    agree env1 env2 st ->
    visit_all env1 config todo working unresolved st
    = visit_all env2 config todo working unresolved st.
Proof.
  induction todo as [|s rest IH]; intros working unresolved st Ha; simpl; [reflexivity|].
  unfold bind. rewrite (resolve_one_agree env1 env2 config s st Ha).
  destruct (resolve_one env2 config s st) as [[resolved st']|e] eqn:E; [|reflexivity].
  apply resolve_one_frame in E.
  destruct resolved; apply IH; eapply agree_frame; eassumption.
Qed.

Lemma passes_agree env1 env2 order config n :
  forall i working st,
    agree env1 env2 st ->
    passes env1 order config n i working st = passes env2 order config n i working st.
Proof.
  induction n as [|n IH]; intros i working st Ha; simpl; [reflexivity|].
  rewrite (visit_all_agree env1 env2 config _ working false st Ha).
  destruct (visit_all env2 config (order i working) working false st)
    as [[[working' unresolved] st']|e] eqn:Hv; [|reflexivity].
  apply visit_all_frame in Hv.
  destruct unresolved; [|reflexivity].
  apply IH. eapply agree_frame; eassumption.
Qed.

(** ** The tree parser *)

Lemma parser_frame_refl t st : parser_frame t st st.
Proof.
  unfold parser_frame. split; [reflexivity|]. split; [reflexivity|]. split; [lia|].
  apply Forall_Forall2_diag, Forall_forall. auto.
Qed.

Lemma parser_frame_trans t st1 st2 st3 :
  parser_frame t st1 st2 -> parser_frame t st2 st3 -> parser_frame t st1 st3.
Proof.
  intros (H1 & H2 & H3 & H4) (K1 & K2 & K3 & K4). unfold parser_frame.
  split; [congruence|]. split; [congruence|]. split; [lia|].
  eapply Forall2_trans; [|exact H4|exact K4].
  intros x y z [Hxy|(key & Hxy)] [Hyz|(key' & Hyz)]; eauto.
  - left. congruence.
  - right. exists key. congruence.
Qed.

Lemma parser_frame_trees t st T :
  length (trees st) <= length T ->
  parser_frame t st (mkStore T (pendings st) (substs st)).
Proof.
  intros H. unfold parser_frame. simpl.
  split; [reflexivity|]. split; [reflexivity|]. split; [exact H|].
  apply Forall_Forall2_diag, Forall_forall. auto.
Qed.

Lemma set_owner_frame c t key : keeps (parser_frame t) (set_owner c t key).
Proof.
  intros st a st' H. unfold set_owner, bind, read_values, write_values in H.
  destruct (pendings st !! c) as [cv|] eqn:E; [|discriminate].
  injection H as _ <-. unfold parser_frame. simpl.
  split; [reflexivity|].
  split; [apply (insert_same_field tokens _ _ cv); [exact E|reflexivity]|].
  split; [lia|].
  rewrite <- (list_insert_id (pendings st) c cv E) at 1.
  apply Forall2_insert.
  - apply Forall_Forall2_diag, Forall_forall. auto.
  - right. exists key. reflexivity.
Qed.

Lemma set_owner_owns c t key st st' :
  set_owner c t key st = Ok (tt, st') -> owned_by t st' c.
Proof.
  intros H. unfold set_owner, bind, read_values, write_values in H.
  destruct (pendings st !! c) as [cv|] eqn:E; [|discriminate].
  injection H as <-. exists (mkValues (tokens cv) (Some (t, key))), key.
  split; [|reflexivity]. simpl. apply list_lookup_insert_eq.
  eapply lookup_lt_Some. exact E.
Qed.

Lemma owned_by_frame t st st' c :
  parser_frame t st st' -> owned_by t st c -> owned_by t st' c.
Proof.
  intros (_ & _ & _ & Hall) (cv & key & Hcv & Ho).
  destruct (Forall2_lookup_l _ _ _ _ _ Hall Hcv) as (cv' & Hcv' & [Hsame|(key' & Hnew)]).
  - exists cv', key. split; [exact Hcv'|congruence].
  - exists cv', key'. split; assumption.
Qed.

Section ParserFrame.

Variable t : nat.

Lemma parser_bind {A B} (m : M A) (k : A -> M B) :
  keeps (parser_frame t) m -> (forall a, keeps (parser_frame t) (k a)) ->
  keeps (parser_frame t) (bind m k).
Proof. apply keeps_bind, parser_frame_trans. Qed.

Lemma parser_ret {A} (a : A) : keeps (parser_frame t) (ret a).
Proof. apply keeps_ret, parser_frame_refl. Qed.

Lemma parser_put t' key v append : keeps (parser_frame t) (tree_put t' key v append).
Proof.
  apply keeps_tree_put;
    [apply parser_frame_refl|apply parser_frame_trans|apply parser_frame_trees].
Qed.

Lemma owner_step_frame key v :
  keeps (parser_frame t)
    (match v with
     | VValues c => set_owner c t key
     | _ => ret tt
     end).
Proof. destruct v; try apply parser_ret. apply set_owner_frame. Qed.

Lemma put_values_frame key values : keeps (parser_frame t) (put_values t key values).
Proof.
  induction values as [|v rest IH]; simpl; [apply parser_ret|].
  apply parser_bind; [apply owner_step_frame|]. intros _.
  apply parser_bind; [apply parser_put|]. intros _. exact IH.
Qed.

Lemma put_tokens_frame key values : keeps (parser_frame t) (put_tokens t key values).
Proof.
  unfold put_tokens. destruct values as [|v rest]; [apply parser_put|].
  destruct v; try apply put_values_frame.
  apply parser_bind; [apply parser_put|]. intros _.
  apply keeps_put_each;
    [apply parser_frame_refl|apply parser_frame_trans|apply parser_frame_trees].
Qed.

Lemma put_items_frame items : keeps (parser_frame t) (put_items t items).
Proof.
  induction items as [|[k v] rest IH]; cbn [put_items]; [apply parser_ret|].
  apply parser_bind; [apply put_tokens_frame|]. intros _. exact IH.
Qed.

Lemma put_elements_frame token_list : keeps (parser_frame t) (put_elements t token_list).
Proof.
  induction token_list as [|[t'|key values] rest IH]; cbn [put_elements];
    [apply parser_ret| |].
  - apply parser_bind; [|intros _; exact IH].
    apply parser_bind; [apply keeps_read_tree, parser_frame_refl|].
    intros items. apply put_items_frame.
  - apply parser_bind; [apply put_tokens_frame|]. intros _. exact IH.
Qed.

Lemma put_values_owns key values : forall st st' c,
  put_values t key values st = Ok (tt, st') ->
  VValues c ∈ values -> owned_by t st' c.
Proof.
  induction values as [|v rest IH]; intros st st' c H Hin.
  - apply elem_of_nil in Hin. contradiction.
  - simpl in H. unfold bind in H.
    destruct (match v with VValues c0 => set_owner c0 t key | _ => ret tt end st)
      as [[[] st1]|e] eqn:E1; [|discriminate].
    destruct (tree_put t key v false st1) as [[[] st2]|e] eqn:E2; [|discriminate].
    apply elem_of_cons in Hin as [<-|Hin].
    + apply set_owner_owns in E1.
      apply parser_put in E2. apply put_values_frame in H.
      eapply owned_by_frame; [exact H|]. eapply owned_by_frame; eassumption.
    + eapply IH; eassumption.
Qed.

Lemma put_tokens_owns key values st st' c :
  put_tokens t key values st = Ok (tt, st') ->
  list_headed values = false -> VValues c ∈ values -> owned_by t st' c.
Proof.
  unfold put_tokens. intros H Hhead Hin.
  destruct values as [|v rest]; [apply elem_of_nil in Hin; contradiction|].
  destruct v; try discriminate; eapply put_values_owns; eassumption.
Qed.

Lemma put_elements_owns token_list : forall st st' key values c,
  put_elements t token_list st = Ok (tt, st') ->
  Assigned key values ∈ token_list ->
  list_headed values = false -> VValues c ∈ values -> owned_by t st' c.
Proof.
  induction token_list as [|element rest IH]; intros st st' key values c H Hel Hhead Hin.
  - apply elem_of_nil in Hel. contradiction.
  - apply elem_of_cons in Hel as [<-|Hel].
    + cbn [put_elements] in H. unfold bind in H.
      destruct (put_tokens t key values st) as [[[] st1]|e] eqn:E1; [|discriminate].
      apply put_elements_frame in H.
      eapply owned_by_frame; [exact H|]. eapply put_tokens_owns; eassumption.
    + destruct element as [t'|key' values']; cbn [put_elements] in H; unfold bind in H.
      * destruct (read_tree t' st) as [[items st0]|e]; [|discriminate].
        destruct (put_items t items st0) as [[[] st1]|e]; [|discriminate].
        eapply IH; eassumption.
      * destruct (put_tokens t key' values' st) as [[[] st1]|e]; [|discriminate].
        eapply IH; eassumption.
Qed.

End ParserFrame.

(** * The resolver and the tree parser as a whole *)

(** X10: [_resolve_substitutions] (lines 215-246) hands back the config it was
    given (line 246), and whatever it resolved it changed no substitution
    and no owner of a concatenation, and dropped no tree: it only writes
    token slots and the keys fixed by the parser (lines 232-235). *)
Theorem resolver_keeps_the_records (environ : string -> option string)
  (order : nat -> list nat -> list nat) (config : value) (substitutions : list nat)
  (st : store) (v : value) (st' : store)
  (Hdone : _resolve_substitutions environ order config substitutions st = Ok (v, st')) :
  v = config
  /\ substs st' = substs st
  /\ owner <$> pendings st' = owner <$> pendings st
  /\ length (trees st) <= length (trees st').
Proof.
  unfold _resolve_substitutions in Hdone.
  destruct (decide (0 < length substitutions)).
  - unfold resolve_loop in Hdone.
    pose proof (passes_frame environ order config (length substitutions) 0
                  (remove_dups substitutions) st) as Hframe.
    destruct (passes environ order config (length substitutions) 0
                (remove_dups substitutions) st); try discriminate.
    injection Hdone as <- <-. split; [reflexivity|exact Hframe].
  - injection Hdone as <- <-. split; [reflexivity|apply resolver_frame_refl].
Qed.

Lemma resolver_keeps_the_records_witness :
  exists st',
    _resolve_substitutions no_environ in_order (parsed_config chain_doc)
      (parsed_substitutions chain_doc) (parsed_store chain_doc)
    = Ok (parsed_config chain_doc, st')
    /\ parsed_config chain_doc = parsed_config chain_doc
    /\ substs st' = substs (parsed_store chain_doc)
    /\ owner <$> pendings st' = owner <$> pendings (parsed_store chain_doc)
    /\ length (trees (parsed_store chain_doc)) <= length (trees st').
Proof.
  eexists. split; [vm_compute; reflexivity|].
  apply (resolver_keeps_the_records no_environ in_order (parsed_config chain_doc)
           (parsed_substitutions chain_doc) (parsed_store chain_doc)).
  vm_compute. reflexivity.
Defined.

(** X11: [_resolve_variable] (lines 192-213) asks the environment for the
    variable of the substitution at hand only, and the resolver changes no
    substitution: two environments that agree on the variables of the
    substitutions of the store give the same result, whatever else they
    hold. *)
Theorem resolver_reads_only_named_variables (env1 env2 : string -> option string)
  (order : nat -> list nat -> list nat) (config : value) (substitutions : list nat)
  (st : store) (Hagree : agree env1 env2 st) :
  _resolve_substitutions env1 order config substitutions st
  = _resolve_substitutions env2 order config substitutions st.
Proof.
  unfold _resolve_substitutions.
  destruct (decide (0 < length substitutions)); [|reflexivity].
  unfold resolve_loop. rewrite (passes_agree env1 env2 order config _ _ _ _ Hagree).
  reflexivity.
Qed.

Lemma resolver_reads_only_named_variables_witness :
  agree home_environ
    (fun name => if String.eqb name "HOME" then Some "/root" else Some "other")
    (parsed_store home_doc)
  /\ _resolve_substitutions home_environ in_order (parsed_config home_doc)
       (parsed_substitutions home_doc) (parsed_store home_doc)
     = _resolve_substitutions
         (fun name => if String.eqb name "HOME" then Some "/root" else Some "other")
         in_order (parsed_config home_doc)
         (parsed_substitutions home_doc) (parsed_store home_doc).
Proof.
  assert (Hagree : agree home_environ
            (fun name => if String.eqb name "HOME" then Some "/root" else Some "other")
            (parsed_store home_doc))
    by (repeat constructor).
  exact (conj Hagree
           (resolver_reads_only_named_variables _ _ in_order (parsed_config home_doc)
              (parsed_substitutions home_doc) (parsed_store home_doc) Hagree)).
Defined.

(** X12: the order in which a pass meets the working set (line 221 iterates a
    set) cannot matter when the set has one member at most: the resolver
    then does in every order what it does in the order of the list. *)
Theorem one_substitution_any_order (environ : string -> option string)
  (order : nat -> list nat -> list nat) (config : value) (substitutions : list nat)
  (st : store)
  (Harr : arranges order) (Hone : length (remove_dups substitutions) <= 1) :
  _resolve_substitutions environ order config substitutions st
  = _resolve_substitutions environ in_order config substitutions st.
Proof.
  destruct substitutions as [|s l].
  - rewrite !resolve_substitutions_nothing. reflexivity.
  - rewrite !resolve_substitutions_outcome by (simpl; lia).
    unfold resolve_loop.
    pose proof (passes_short_working environ order config (length (s :: l)) 0
                  (remove_dups (s :: l)) st Hone) as Hw.
    rewrite (passes_short environ order Harr) in * by exact Hone.
    destruct (passes environ in_order config (length (s :: l)) 0
                (remove_dups (s :: l)) st); try reflexivity.
    unfold outcome. rewrite (arranged_short order Harr _ working Hw). reflexivity.
Qed.

Lemma one_substitution_any_order_witness :
  arranges reversed
  /\ length (remove_dups (parsed_substitutions home_doc)) <= 1
  /\ _resolve_substitutions home_environ reversed (parsed_config home_doc)
       (parsed_substitutions home_doc) (parsed_store home_doc)
     = _resolve_substitutions home_environ in_order (parsed_config home_doc)
         (parsed_substitutions home_doc) (parsed_store home_doc).
Proof.
  assert (Hone : length (remove_dups (parsed_substitutions home_doc)) <= 1)
    by (vm_compute; lia).
  exact (conj reversed_arranges
           (conj Hone
              (one_substitution_any_order home_environ reversed (parsed_config home_doc)
                 (parsed_substitutions home_doc) (parsed_store home_doc)
                 reversed_arranges Hone))).
Defined.

(** X13: [ConfigTreeParser.postParse] (lines 289-329) returns a new tree.  It
    changes no substitution and no token of a concatenation; an owner that
    it changes becomes the new tree (lines 323-324); and every
    concatenation that is a value of one of its assignments, unless the
    group begins with a list (line 311), is owned by the new tree at the
    end. *)
Theorem tree_parser_owns_its_concatenations (token_list : list element)
  (st : store) (v : value) (st' : store)
  (Hdone : ConfigTreeParser_postParse token_list st = Ok (v, st')) :
  v = VTree (length (trees st))
  /\ substs st' = substs st
  /\ tokens <$> pendings st' = tokens <$> pendings st
  /\ Forall2 (fun cv cv' => owner cv' = owner cv
                            \/ exists key, owner cv' = Some (length (trees st), key))
       (pendings st) (pendings st')
  /\ forall key values c,
       Assigned key values ∈ token_list -> list_headed values = false ->
       VValues c ∈ values -> owned_by (length (trees st)) st' c.
Proof.
  unfold ConfigTreeParser_postParse, bind, new_tree in Hdone.
  set (t := length (trees st)) in *.
  set (st0 := mkStore (trees st ++ [[]]) (pendings st) (substs st)) in *.
  destruct (put_elements t token_list st0) as [[[] st1]|e] eqn:Hput; [|discriminate].
  injection Hdone as <- <-.
  pose proof (put_elements_frame t token_list _ _ _ Hput) as (H1 & H2 & H3 & H4).
  split; [reflexivity|]. split; [exact H1|]. split; [exact H2|]. split; [exact H4|].
  intros key values c Hel Hhead Hin.
  eapply put_elements_owns; eassumption.
Qed.

Lemma tree_parser_witness :
  ConfigTreeParser_postParse [Assigned "a " [VValues 0]]
    (mkStore [] [mkValues [VSubst 0] None]
       [mkSubst "b" "" (Some 0) (Some 0) "{a : ${b}}" 5])
  = Ok (VTree 0,
        mkStore [[("a", VValues 0)]] [mkValues [VSubst 0] (Some (0, "a"))]
          [mkSubst "b" "" (Some 0) (Some 0) "{a : ${b}}" 5])
  /\ owned_by 0
       (mkStore [[("a", VValues 0)]] [mkValues [VSubst 0] (Some (0, "a"))]
          [mkSubst "b" "" (Some 0) (Some 0) "{a : ${b}}" 5]) 0.
Proof.
  split; [reflexivity|].
  refine (proj2 (proj2 (proj2 (proj2
            (tree_parser_owns_its_concatenations [Assigned "a " [VValues 0]]
               (mkStore [] [mkValues [VSubst 0] None]
                  [mkSubst "b" "" (Some 0) (Some 0) "{a : ${b}}" 5])
               (VTree 0)
               (mkStore [[("a", VValues 0)]] [mkValues [VSubst 0] (Some (0, "a"))]
                  [mkSubst "b" "" (Some 0) (Some 0) "{a : ${b}}" 5])
               eq_refl)))) "a " [VValues 0] 0 _ eq_refl _);
    apply list_elem_of_here.
Defined.
